(** * lgtmgen: the batch overlay command, [cli.go]

    A shallow embedding of [cli.go] and the properties of its
    command-line driver [Run]: exit codes, enumeration of the input
    directory, the destination of every task, the overwrite guard, the
    diagnostic lines and the wait-group barrier.

    The Go standard library, [github.com/disintegration/imaging] and the
    generated asset package [images] are not part of [cli.go]; every call
    into them is a field of the class [Platform], so that each theorem holds
    for any behaviour of those packages.  The module [Sim] at the end of the
    definitions instantiates the class with a small simulated machine on
    which the model runs. *)

From Stdlib Require Import List String Ascii ZArith QArith Lia Bool Arith.
From Stdlib.Strings Require Import Byte.
From Stdlib Require Import Permutation.
Import ListNotations.
Close Scope Q_scope.
Open Scope list_scope.
Open Scope string_scope.


(** ** Go values *)

(** A non-nil [error], identified with the text of its [Error()] method. *)
Definition error := string.

(** A Go [(T, error)] return whose callers look at the error first. *)
Inductive result (A : Type) : Type :=
| Ok (a : A)
| Err (e : error).
Arguments Ok {A} a.
Arguments Err {A} e.

(** A Go call either returns or panics. *)
Inductive outcome (A : Type) : Type :=
| Returns (a : A)
| Panics (v : string).
Arguments Returns {A} a.
Arguments Panics {A} v.

Definition bytes := list byte.

(** What [cli.go] reads from an [os.FileInfo]. *)
Record FileInfo := { fi_Name : string; fi_IsDir : bool }.

(** The four variables bound by the flag set of [Run]. *)
Record Flags := {
  fl_output : string;
  fl_directory : string;
  fl_force : bool;
  fl_version : bool }.

(** [flags.Parse] under [flag.ContinueOnError]: the variables it has set,
    or the error it returns together with what it printed on the flag set's
    output. *)
Inductive ParseResult :=
| Parsed (f : Flags)
| ParseFailed (err : error) (printed : list string).

(** ** The packages [cli.go] calls *)

Class Platform := {
  (** a decoded [image.Image] other than [nil] *)
  Image : Type;
  (** the [*image.NRGBA] the compositor returns *)
  NRGBA : Type;
  (** the state of the file system *)
  FS : Type;
  (** [Name] and [Version], declared in another file of package [main] *)
  Name : string;
  Version : string;
  (** the flag set built by [Run], applied to [args[1:]] *)
  flag_Parse : list string -> ParseResult;
  (** [images.Asset] *)
  images_Asset : string -> result bytes;
  (** [image.Decode]: the image (possibly [nil]) and the error *)
  image_Decode : bytes -> option Image * option error;
  (** [ioutil.ReadDir] *)
  ioutil_ReadDir : FS -> string -> result (list FileInfo);
  (** [imaging.Open] *)
  imaging_Open : FS -> string -> result Image;
  (** [imaging.OverlayCenter] on two images that are not [nil] *)
  imaging_OverlayCenter : Image -> Image -> Q -> NRGBA;
  (** [os.Stat] *)
  os_Stat : FS -> string -> result FileInfo;
  (** [imaging.Save]: the file system afterwards and the error *)
  imaging_Save : FS -> NRGBA -> string -> FS * option error;
  (** reading a file back, to speak about what [imaging.Save] left *)
  ioutil_ReadFile : FS -> string -> result bytes
}.

(** ** Strings, as [strings], [bytes.Buffer], [path/filepath] and [fmt] treat them *)

(** [strings.HasSuffix]:
    [len(s) >= len(suffix) && s[len(s)-len(suffix):] == suffix]. *)
Definition strings_HasSuffix (s suffix : string) : bool :=
  (String.length suffix <=? String.length s)%nat &&
  String.eqb
    (substring (String.length s - String.length suffix) (String.length suffix) s)
    suffix.

Definition isPathSeparator (c : ascii) : bool := Ascii.eqb c "/"%char.

Fixpoint dropWhile {A} (p : A -> bool) (l : list A) : list A :=
  match l with
  | [] => []
  | x :: l' => if p x then dropWhile p l' else l
  end.

Fixpoint takeWhile {A} (p : A -> bool) (l : list A) : list A :=
  match l with
  | [] => []
  | x :: l' => if p x then x :: takeWhile p l' else []
  end.

(** [filepath.Base] with [/] as the separator: the empty path gives ["."],
    trailing separators are stripped, the last element is kept, and a path
    of separators only gives ["/"]. *)
Definition filepath_Base (path : string) : string :=
  if String.eqb path "" then "."
  else
    let stripped := dropWhile isPathSeparator (rev (list_ascii_of_string path)) in
    let last := rev (takeWhile (fun c => negb (isPathSeparator c)) stripped) in
    match last with
    | [] => "/"
    | _ => string_of_list_ascii last
    end.

(** The name of a directory entry: not empty and free of separators. *)
Definition valid_name (name : string) : bool :=
  negb (String.eqb name "")
  && forallb (fun c => negb (isPathSeparator c)) (list_ascii_of_string name).

(** How many separators a path ends in. *)
Definition trailing_separators (path : string) : nat :=
  List.length (takeWhile isPathSeparator (rev (list_ascii_of_string path))).

(** The verb [%s] applied to an [error] operand: the error's text, and
    [%!s(<nil>)] for a nil interface. *)
Definition fmt_error (e : option error) : string :=
  match e with
  | Some msg => msg
  | None => "%!s(<nil>)"
  end.

Definition newline : string := String (ascii_of_nat 10) EmptyString.

(** ** Constants of [cli.go] *)

Definition MaskImage : string := "images/lgtm_mask.png".

Definition ExitCodeOK : Z := 0.

(** [ExitCodeError int = 1 + iota] is the second specification of its
    [const] block, where [iota] is 1. *)
Definition iota_ExitCodeError : Z := 1.
Definition ExitCodeError : Z := 1 + iota_ExitCodeError.

(** ** The helper functions of [cli.go] *)

(** [addDirectorySuffix] *)
Definition addDirectorySuffix (directoryPath : string) : string :=
  if strings_HasSuffix directoryPath "/" then directoryPath
  else directoryPath ++ "/".

Section Helpers.
Context {P : Platform}.

(** [loadMaskImage]: the error of [image.Decode] is dropped, and the image
    it returned goes out with a nil error. *)
Definition loadMaskImage (maskImage : string) : option Image * option error :=
  match images_Asset maskImage with
  | Err err => (None, Some err)
  | Ok imageByte =>
      let img := fst (image_Decode imageByte) in
      (img, None)
  end.

(** [readImagePaths]: panics when the directory cannot be read; otherwise
    one path per entry that is not a directory, in the order of
    [ioutil.ReadDir]. *)
Fixpoint readImagePaths_loop (target : string) (files : list FileInfo)
  : list string :=
  match files with
  | [] => []
  | fileInfo :: rest =>
      if fi_IsDir fileInfo then readImagePaths_loop target rest
      else (target ++ fi_Name fileInfo) :: readImagePaths_loop target rest
  end.

Definition readImagePaths (fs : FS) (target : string) : outcome (list string) :=
  match ioutil_ReadDir fs target with
  | Err err => Panics err
  | Ok files => Returns (readImagePaths_loop target files)
  end.

(** The opacity [1.0] passed to the compositor. *)
Definition opacity : Q := 1.

(** [overlayImage].  [imaging.OverlayCenter] reads the bounds of both of
    its images, so a nil mask is a nil dereference there. *)
Definition overlayImage (fs : FS) (file : string) (maskImage : option Image)
  : outcome (result NRGBA) :=
  match imaging_Open fs file with
  | Err err => Returns (Err err)
  | Ok srcImage =>
      match maskImage with
      | None => Panics "invalid memory address or nil pointer dereference"
      | Some mask => Returns (Ok (imaging_OverlayCenter srcImage mask opacity))
      end
  end.

(** [existFile] *)
Definition existFile (fs : FS) (filename : string) : bool :=
  match os_Stat fs filename with
  | Ok _ => true
  | Err _ => false
  end.

End Helpers.

(** ** [Run]: from the arguments to the dispatch loop *)

Section Machine.
Context {P : Platform}.

(** What the goroutines of [Run] capture: [output] (after
    [addDirectorySuffix]), [force], [maskImage], and the slice the loop
    ranges over. *)
Record Config := {
  cfg_output : string;
  cfg_force : bool;
  cfg_maskImage : option Image;
  cfg_filePaths : list string }.

(** How the sequential part of [Run] ends. *)
Inductive Init :=
| InitReturn (code : Z)
| InitPanic (v : string)
| InitDispatch (cfg : Config).

(** [Run] up to the [for] loop, with what it wrote to [cli.errStream]. *)
Definition Run_init (args : list string) (fs : FS) : Init * list string :=
  match args with
  | [] => (InitPanic "slice bounds out of range [1:0]", [])
  | _ :: rest =>
      match flag_Parse rest with
      | ParseFailed _ printed => (InitReturn ExitCodeError, printed)
      | Parsed f =>
          if fl_version f then
            (InitReturn ExitCodeOK, [Name ++ " version " ++ Version ++ newline])
          else if String.eqb (fl_directory f) "" then
            (InitReturn ExitCodeError,
             ["input directory path is required." ++ newline])
          else if String.eqb (fl_output f) "" then
            (InitReturn ExitCodeError,
             ["output directory path is required." ++ newline])
          else
            let directory := addDirectorySuffix (fl_directory f) in
            let output := addDirectorySuffix (fl_output f) in
            match loadMaskImage MaskImage with
            | (_, Some err) =>
                (InitReturn ExitCodeError,
                 ["fatal error " ++ err ++ "." ++ newline])
            | (maskImage, None) =>
                match readImagePaths fs directory with
                | Panics v => (InitPanic v, [])
                | Returns filePaths =>
                    (InitDispatch {| cfg_output := output;
                                     cfg_force := fl_force f;
                                     cfg_maskImage := maskImage;
                                     cfg_filePaths := filePaths |}, [])
                end
            end
      end
  end.

(** ** The goroutine of one file *)

(** [outputFilePath]: the buffer receives [output], then
    [filepath.Base(filePath)]. *)
Definition outputFilePath (output filePath : string) : string :=
  output ++ filepath_Base filePath.

(** Where a goroutine stands in the body of the function literal. *)
Inductive TaskPC :=
| AtOverlay                          (* before [overlayImage] *)
| AtLogMaskErr (mask_err : error)    (* [mask_err != nil], before the print *)
| AtGuard (maskedImage : NRGBA)      (* before [existFile(..) && !force] *)
| AtLogExists                        (* the guard held, before the print *)
| AtSave (maskedImage : NRGBA)       (* before [imaging.Save] *)
| AtLogSaveErr (save_err : error)    (* [save_err != nil], before the print *)
| AtLogSuccess                       (* before [fmt.Printf] *)
| AtDone                             (* body left, deferred [wg.Done()] due *)
| Panicking (v : string)             (* unwinding, deferred [wg.Done()] due *)
| Panicked (v : string)              (* unwound: the runtime is to exit *)
| Finished.

(** The calls a goroutine has made, with their results.  No transition
    reads this record; it is what the theorems speak about. *)
Inductive Call :=
| CallOverlay (r : result NRGBA)
| CallExist (path : string) (found : bool)
| CallSave (path : string) (img : NRGBA) (save_err : option error)
| WriteErr (line : string)
| WriteOut (line : string)
| CallDone.

(** The path a call was made on. *)
Definition call_path (c : Call) : option string :=
  match c with
  | CallExist path _ => Some path
  | CallSave path _ _ => Some path
  | _ => None
  end.

Record Task := {
  t_filePath : string;
  t_pc : TaskPC;
  t_calls : list Call }.

(** What one step of a goroutine does to what it shares with the others. *)
Inductive Effect :=
| Reads
| ToErrStream (line : string)
| ToStdout (line : string)
| NewFS (fs' : FS)
| WgDone
| Panic (v : string).                (* the runtime ends the process *)

(** What an effect adds to each stream, and whether it is [wg.Done()]. *)
Definition eff_err (e : Effect) : list string :=
  match e with ToErrStream line => [line] | _ => [] end.

Definition eff_out (e : Effect) : list string :=
  match e with ToStdout line => [line] | _ => [] end.

Definition is_WgDone (e : Effect) : bool :=
  match e with WgDone => true | _ => false end.

Definition advance (t : Task) (pc : TaskPC) (c : Call) : Task :=
  {| t_filePath := t_filePath t; t_pc := pc; t_calls := t_calls t ++ [c] |}.

Definition unwind (t : Task) (v : string) : Task :=
  {| t_filePath := t_filePath t; t_pc := Panicking v; t_calls := t_calls t |}.

(** One step of the goroutine started for [t_filePath t].  A panic in
    [overlayImage] unwinds the goroutine: its deferred [wg.Done()] runs, and
    then the runtime ends the process; until it does, [Run] and the other
    goroutines go on. *)
Definition task_step (cfg : Config) (fs : FS) (t : Task)
  : option (Task * Effect) :=
  let filePath := t_filePath t in
  let dest := outputFilePath (cfg_output cfg) filePath in
  match t_pc t with
  | AtOverlay =>
      match overlayImage fs filePath (cfg_maskImage cfg) with
      | Panics v => Some (unwind t v, Reads)
      | Returns (Err mask_err) =>
          Some (advance t (AtLogMaskErr mask_err) (CallOverlay (Err mask_err)),
                Reads)
      | Returns (Ok maskedImage) =>
          Some (advance t (AtGuard maskedImage) (CallOverlay (Ok maskedImage)),
                Reads)
      end
  | AtLogMaskErr mask_err =>
      let line := "[" ++ fmt_error (Some mask_err) ++ "] " ++ filePath ++ newline in
      Some (advance t AtDone (WriteErr line), ToErrStream line)
  | AtGuard maskedImage =>
      let found := existFile fs dest in
      if found && negb (cfg_force cfg)
      then Some (advance t AtLogExists (CallExist dest found), Reads)
      else Some (advance t (AtSave maskedImage) (CallExist dest found), Reads)
  | AtLogExists =>
      let line := "[already exists] " ++ dest ++ newline in
      Some (advance t AtDone (WriteErr line), ToErrStream line)
  | AtSave maskedImage =>
      let (fs', save_err) := imaging_Save fs maskedImage dest in
      match save_err with
      | Some e =>
          Some (advance t (AtLogSaveErr e) (CallSave dest maskedImage save_err),
                NewFS fs')
      | None =>
          Some (advance t AtLogSuccess (CallSave dest maskedImage save_err),
                NewFS fs')
      end
  | AtLogSaveErr _ =>
      (* the operand of the print is [mask_err], nil since the first test *)
      let mask_err : option error := None in
      let line := "[" ++ fmt_error mask_err ++ "] " ++ filePath ++ newline in
      Some (advance t AtDone (WriteErr line), ToErrStream line)
  | AtLogSuccess =>
      let line := "[success] " ++ dest ++ newline in
      Some (advance t AtDone (WriteOut line), ToStdout line)
  | AtDone => Some (advance t Finished CallDone, WgDone)
  | Panicking v => Some (advance t (Panicked v) CallDone, WgDone)
  | Panicked v => Some (t, Panic v)
  | Finished => None
  end.

(** ** The process: [Run] in its loop and at [wg.Wait()], and its goroutines *)

Inductive MainPC :=
| Dispatching (rest : list string)   (* in the [for] loop, [rest] to go *)
| Waiting                            (* in [wg.Wait()] *)
| Returned (code : Z).

Record State := {
  st_main : MainPC;
  st_wg : Z;                    (* the counter of the wait group *)
  st_tasks : list Task;         (* the goroutines, in the order started *)
  st_fs : FS;
  st_err : list string;         (* writes to [cli.errStream], in order *)
  st_out : list string;         (* writes to [os.Stdout], in order *)
  st_panic : option string }.   (* the process died in a panic *)

Definition initial (cfg : Config) (fs : FS) (printed : list string) : State :=
  {| st_main := Dispatching (cfg_filePaths cfg); st_wg := 0; st_tasks := [];
     st_fs := fs; st_err := printed; st_out := []; st_panic := None |}.

Definition newTask (filePath : string) : Task :=
  {| t_filePath := filePath; t_pc := AtOverlay; t_calls := [] |}.

(** One step of [Run] itself: [wg.Add(1)] and the [go] statement for the
    next path, the end of the loop, or the return from [wg.Wait()] once the
    counter is zero. *)
Definition main_step (s : State) : option State :=
  match st_main s with
  | Dispatching (filePath :: rest) =>
      Some {| st_main := Dispatching rest; st_wg := st_wg s + 1;
              st_tasks := st_tasks s ++ [newTask filePath];
              st_fs := st_fs s; st_err := st_err s; st_out := st_out s;
              st_panic := st_panic s |}
  | Dispatching [] =>
      Some {| st_main := Waiting; st_wg := st_wg s; st_tasks := st_tasks s;
              st_fs := st_fs s; st_err := st_err s; st_out := st_out s;
              st_panic := st_panic s |}
  | Waiting =>
      if (st_wg s =? 0)%Z then
        Some {| st_main := Returned ExitCodeOK; st_wg := st_wg s;
                st_tasks := st_tasks s; st_fs := st_fs s; st_err := st_err s;
                st_out := st_out s; st_panic := st_panic s |}
      else None
  | Returned _ => None
  end.

(** The effect of a goroutine's step on the shared state.  [wg.Done()]
    panics when the counter would become negative. *)
Definition apply_effect (s : State) (tasks' : list Task) (e : Effect) : State :=
  match e with
  | Reads =>
      {| st_main := st_main s; st_wg := st_wg s; st_tasks := tasks';
         st_fs := st_fs s; st_err := st_err s; st_out := st_out s;
         st_panic := st_panic s |}
  | ToErrStream line =>
      {| st_main := st_main s; st_wg := st_wg s; st_tasks := tasks';
         st_fs := st_fs s; st_err := st_err s ++ [line]; st_out := st_out s;
         st_panic := st_panic s |}
  | ToStdout line =>
      {| st_main := st_main s; st_wg := st_wg s; st_tasks := tasks';
         st_fs := st_fs s; st_err := st_err s; st_out := st_out s ++ [line];
         st_panic := st_panic s |}
  | NewFS fs' =>
      {| st_main := st_main s; st_wg := st_wg s; st_tasks := tasks';
         st_fs := fs'; st_err := st_err s; st_out := st_out s;
         st_panic := st_panic s |}
  | WgDone =>
      {| st_main := st_main s; st_wg := st_wg s - 1; st_tasks := tasks';
         st_fs := st_fs s; st_err := st_err s; st_out := st_out s;
         st_panic := if (st_wg s - 1 <? 0)%Z
                     then Some "sync: negative WaitGroup counter"
                     else st_panic s |}
  | Panic v =>
      {| st_main := st_main s; st_wg := st_wg s; st_tasks := tasks';
         st_fs := st_fs s; st_err := st_err s; st_out := st_out s;
         st_panic := Some v |}
  end.

(** Thread 0 is [Run]; thread [S i] is the goroutine started [i]-th.  A dead
    process takes no step. *)
Definition step_thread (cfg : Config) (tid : nat) (s : State) : option State :=
  match st_panic s with
  | Some _ => None
  | None =>
      match tid with
      | O => main_step s
      | S i =>
          match nth_error (st_tasks s) i with
          | None => None
          | Some t =>
              match task_step cfg (st_fs s) t with
              | None => None
              | Some (t', e) =>
                  Some (apply_effect s
                          (firstn i (st_tasks s) ++ t' :: skipn (S i) (st_tasks s))
                          e)
              end
          end
      end
  end.

(** Any thread may take the next step. *)
Definition step (cfg : Config) (s s' : State) : Prop :=
  exists tid, step_thread cfg tid s = Some s'.

(** A step is a step of [Run] or of one goroutine. *)
Inductive step_cases (cfg : Config) (s s' : State) : Prop :=
| case_main :
    st_panic s = None -> main_step s = Some s' -> step_cases cfg s s'
| case_task l1 t l2 t' e :
    st_panic s = None ->
    st_tasks s = (l1 ++ t :: l2)%list ->
    task_step cfg (st_fs s) t = Some (t', e) ->
    s' = apply_effect s (l1 ++ t' :: l2) e ->
    step_cases cfg s s'.

Inductive steps (cfg : Config) : State -> State -> Prop :=
| steps_refl s : steps cfg s s
| steps_step s1 s2 s3 : steps cfg s1 s2 -> step cfg s2 s3 -> steps cfg s1 s3.

(** A schedule names the thread to try next; a thread that cannot move is
    passed over. *)
Fixpoint run_sched (cfg : Config) (sched : list nat) (s : State) : State :=
  match sched with
  | [] => s
  | tid :: sched' =>
      match step_thread cfg tid s with
      | Some s' => run_sched cfg sched' s'
      | None => run_sched cfg sched' s
      end
  end.

End Machine.

(** ** What a goroutine's record of calls can look like *)

Section Logs.
Context {P : Platform}.
Variable cfg : Config.
Variable filePath : string.

(** The four ways through the body of the function literal. *)
Inductive body_log : list Call -> Prop :=
| body_failed mask_err :
    body_log [CallOverlay (Err mask_err);
              WriteErr ("[" ++ mask_err ++ "] " ++ filePath ++ newline)]
| body_skipped img :
    cfg_force cfg = false ->
    body_log [CallOverlay (Ok img);
              CallExist (outputFilePath (cfg_output cfg) filePath) true;
              WriteErr ("[already exists] "
                        ++ outputFilePath (cfg_output cfg) filePath ++ newline)]
| body_save_failed img found save_err :
    found && negb (cfg_force cfg) = false ->
    body_log [CallOverlay (Ok img);
              CallExist (outputFilePath (cfg_output cfg) filePath) found;
              CallSave (outputFilePath (cfg_output cfg) filePath) img
                       (Some save_err);
              WriteErr ("[%!s(<nil>)] " ++ filePath ++ newline)]
| body_saved img found :
    found && negb (cfg_force cfg) = false ->
    body_log [CallOverlay (Ok img);
              CallExist (outputFilePath (cfg_output cfg) filePath) found;
              CallSave (outputFilePath (cfg_output cfg) filePath) img None;
              WriteOut ("[success] "
                        ++ outputFilePath (cfg_output cfg) filePath ++ newline)].

(** The record of calls that goes with each point of the body. *)
Inductive task_log : TaskPC -> list Call -> Prop :=
| log_AtOverlay : task_log AtOverlay []
| log_AtLogMaskErr mask_err :
    task_log (AtLogMaskErr mask_err) [CallOverlay (Err mask_err)]
| log_AtGuard img :
    task_log (AtGuard img) [CallOverlay (Ok img)]
| log_AtLogExists img :
    cfg_force cfg = false ->
    task_log AtLogExists
      [CallOverlay (Ok img);
       CallExist (outputFilePath (cfg_output cfg) filePath) true]
| log_AtSave img found :
    found && negb (cfg_force cfg) = false ->
    task_log (AtSave img)
      [CallOverlay (Ok img);
       CallExist (outputFilePath (cfg_output cfg) filePath) found]
| log_AtLogSaveErr img found save_err :
    found && negb (cfg_force cfg) = false ->
    task_log (AtLogSaveErr save_err)
      [CallOverlay (Ok img);
       CallExist (outputFilePath (cfg_output cfg) filePath) found;
       CallSave (outputFilePath (cfg_output cfg) filePath) img (Some save_err)]
| log_AtLogSuccess img found :
    found && negb (cfg_force cfg) = false ->
    task_log AtLogSuccess
      [CallOverlay (Ok img);
       CallExist (outputFilePath (cfg_output cfg) filePath) found;
       CallSave (outputFilePath (cfg_output cfg) filePath) img None]
| log_AtDone calls :
    body_log calls -> task_log AtDone calls
| log_Panicking v :
    cfg_maskImage cfg = None -> task_log (Panicking v) []
| log_Panicked v :
    cfg_maskImage cfg = None -> task_log (Panicked v) [CallDone]
| log_Finished calls :
    body_log calls -> task_log Finished (calls ++ [CallDone]).

End Logs.

Section Invariants.
Context {P : Platform}.

Definition task_ok (cfg : Config) (t : Task) : Prop :=
  task_log cfg (t_filePath t) (t_pc t) (t_calls t).

(** A goroutine is outstanding until its deferred [wg.Done()] has run. *)
Definition running (t : Task) : bool :=
  match t_pc t with
  | Finished | Panicked _ => false
  | _ => true
  end.

Definition outstanding (tasks : list Task) : nat :=
  List.length (filter running tasks).

Definition remaining (m : MainPC) : list string :=
  match m with
  | Dispatching rest => rest
  | _ => []
  end.

Definition err_line_of (c : Call) : list string :=
  match c with
  | WriteErr line => [line]
  | _ => []
  end.

Definition out_line_of (c : Call) : list string :=
  match c with
  | WriteOut line => [line]
  | _ => []
  end.

(** The lines a goroutine has written to each stream. *)
Definition err_lines (t : Task) : list string := flat_map err_line_of (t_calls t).
Definition out_lines (t : Task) : list string := flat_map out_line_of (t_calls t).

(** The calls to [imaging.Save] a goroutine has made, and a file system
    after a sequence of such calls. *)
Definition save_of (c : Call) : list (string * NRGBA) :=
  match c with
  | CallSave path img _ => [(path, img)]
  | _ => []
  end.

Definition saves_of (t : Task) : list (string * NRGBA) :=
  flat_map save_of (t_calls t).

Fixpoint apply_saves (fs : FS) (saves : list (string * NRGBA)) : FS :=
  match saves with
  | [] => fs
  | (path, img) :: rest => apply_saves (fst (imaging_Save fs img path)) rest
  end.



(** The points of the body before any call of [imaging.Save]. *)
Definition before_save (pc : TaskPC) : bool :=
  match pc with
  | AtSave _ | AtLogSaveErr _ | AtLogSuccess => false
  | _ => true
  end.

(** The file system after an effect. *)
Definition eff_fs (fs : FS) (e : Effect) : FS :=
  match e with
  | NewFS fs' => fs'
  | _ => fs
  end.

(** What holds of every state the process can reach from [initial]. *)
Record Inv (cfg : Config) (printed : list string) (s : State) : Prop := {
  inv_paths :
    (map t_filePath (st_tasks s) ++ remaining (st_main s))%list
    = cfg_filePaths cfg;
  inv_wg : st_wg s = Z.of_nat (outstanding (st_tasks s));
  inv_returned :
    forall code, st_main s = Returned code ->
                 code = ExitCodeOK /\ outstanding (st_tasks s) = 0%nat;
  inv_panic :
    forall v, st_panic s = Some v -> cfg_maskImage cfg = None;
  inv_logs : Forall (task_ok cfg) (st_tasks s);
  inv_err :
    Permutation (st_err s) (printed ++ flat_map err_lines (st_tasks s))%list;
  inv_out :
    Permutation (st_out s) (flat_map out_lines (st_tasks s))
}.

End Invariants.

(** ** Complete runs *)

Section Runs.
Context {P : Platform}.

(** How the process stands: still running, returned from [Run] with an
    exit code, or dead in a panic. *)
Inductive Status :=
| InProgress
| Exited (code : Z)
| Crashed (v : string).

Definition status (s : State) : Status :=
  match st_panic s with
  | Some v => Crashed v
  | None =>
      match st_main s with
      | Returned code => Exited code
      | _ => InProgress
      end
  end.

(** What a run leaves behind. *)
Record Outcome := {
  o_status : Status;
  o_tasks : list Task;        (* the goroutines that were started *)
  o_fs : FS;
  o_err : list string;        (* [cli.errStream] *)
  o_out : list string }.      (* [os.Stdout] *)

Definition observe (s : State) : Outcome :=
  {| o_status := status s; o_tasks := st_tasks s; o_fs := st_fs s;
     o_err := st_err s; o_out := st_out s |}.

(** The steps a goroutine has left at most, and the same for the process;
    every step lowers the latter. *)
Definition pc_measure (pc : TaskPC) : nat :=
  match pc with
  | AtOverlay => 5
  | AtGuard _ => 4
  | AtSave _ => 3
  | AtLogMaskErr _ | AtLogExists | AtLogSaveErr _ | AtLogSuccess => 2
  | Panicking _ => 2
  | AtDone | Panicked _ => 1
  | Finished => 0
  end.

Definition main_measure (m : MainPC) : nat :=
  match m with
  | Dispatching rest => 2 + 6 * List.length rest
  | Waiting => 1
  | Returned _ => 0
  end.

Definition measure (s : State) : nat :=
  match st_panic s with
  | Some _ => 0
  | None =>
      1 + main_measure (st_main s)
      + list_sum (map (fun t => pc_measure (t_pc t)) (st_tasks s))
  end.

(** After the given schedule, every thread is tried in turn, round after
    round. *)
Fixpoint run_rounds (cfg : Config) (rounds : nat) (s : State) : State :=
  match rounds with
  | O => s
  | S rounds' =>
      run_rounds cfg rounds'
        (run_sched cfg (seq 0 (S (List.length (st_tasks s)))) s)
  end.

Definition run_to_end (cfg : Config) (sched : list nat) (s : State) : State :=
  let s1 := run_sched cfg sched s in
  run_rounds cfg (measure s1) s1.

(** [Run] under a schedule of its threads. *)
Definition Run (sched : list nat) (args : list string) (fs : FS) : Outcome :=
  match Run_init args fs with
  | (InitReturn code, printed) =>
      {| o_status := Exited code; o_tasks := []; o_fs := fs;
         o_err := printed; o_out := [] |}
  | (InitPanic v, printed) =>
      {| o_status := Crashed v; o_tasks := []; o_fs := fs;
         o_err := printed; o_out := [] |}
  | (InitDispatch cfg, printed) =>
      observe (run_to_end cfg sched (initial cfg fs printed))
  end.

(** The runs of [Run] under any interleaving of its threads. *)
Inductive RunsTo (args : list string) (fs : FS) : Outcome -> Prop :=
| RunsTo_return code printed :
    Run_init args fs = (InitReturn code, printed) ->
    RunsTo args fs {| o_status := Exited code; o_tasks := []; o_fs := fs;
                      o_err := printed; o_out := [] |}
| RunsTo_panic v printed :
    Run_init args fs = (InitPanic v, printed) ->
    RunsTo args fs {| o_status := Crashed v; o_tasks := []; o_fs := fs;
                      o_err := printed; o_out := [] |}
| RunsTo_dispatch cfg printed s :
    Run_init args fs = (InitDispatch cfg, printed) ->
    steps cfg (initial cfg fs printed) s ->
    status s <> InProgress ->
    RunsTo args fs (observe s).

(** The conditions on which [Run] gives up before its loop, in the order
    [Run] meets them, each with the way the run then ends. *)
Inductive Fatal (args : list string) (fs : FS) : Status -> Prop :=
| FlagParseFailure a0 rest err printed :
    args = a0 :: rest ->
    flag_Parse rest = ParseFailed err printed ->
    Fatal args fs (Exited ExitCodeError)
| MissingDirectory a0 rest f :
    args = a0 :: rest ->
    flag_Parse rest = Parsed f ->
    fl_version f = false ->
    fl_directory f = "" ->
    Fatal args fs (Exited ExitCodeError)
| MissingOutput a0 rest f :
    args = a0 :: rest ->
    flag_Parse rest = Parsed f ->
    fl_version f = false ->
    fl_output f = "" ->
    Fatal args fs (Exited ExitCodeError)
| MissingMask a0 rest f e :
    args = a0 :: rest ->
    flag_Parse rest = Parsed f ->
    fl_version f = false ->
    fl_directory f <> "" ->
    fl_output f <> "" ->
    images_Asset MaskImage = Err e ->
    Fatal args fs (Exited ExitCodeError)
| UnreadableDirectory a0 rest f data e :
    args = a0 :: rest ->
    flag_Parse rest = Parsed f ->
    fl_version f = false ->
    fl_directory f <> "" ->
    fl_output f <> "" ->
    images_Asset MaskImage = Ok data ->
    ioutil_ReadDir fs (addDirectorySuffix (fl_directory f)) = Err e ->
    Fatal args fs (Crashed e).

End Runs.

(** ** A simulated machine

    An instance of [Platform] small enough to run: files are rows of
    bytes, an image file is the byte [0x89] followed by its pixels, the
    compositor lays the mask over the first pixels of the source, and the
    flag set of [Run] is parsed the way package [flag] does it. *)

Module Sim.

(** *** Files *)

Inductive Node :=
| File (data : bytes)
| Dir
| NoAccess (data : bytes).  (* a file that [stat] and [open] may not reach *)

(** Paths in clean form with what is there, directories without their
    final separator, entries of one directory in the order of their names. *)
Definition FileSystem := list (string * Node).

(** Runs of separators count as one and a final separator is dropped. *)
Fixpoint clean_chars (l : list ascii) : list ascii :=
  match l with
  | [] => []
  | c :: l' =>
      if isPathSeparator c then
        match clean_chars l' with
        | [] => []
        | d :: r => if isPathSeparator d then d :: r else c :: d :: r
        end
      else c :: clean_chars l'
  end.

Definition clean (path : string) : string :=
  string_of_list_ascii (clean_chars (list_ascii_of_string path)).

Fixpoint assoc (fs : FileSystem) (key : string) : option Node :=
  match fs with
  | [] => None
  | (k, n) :: fs' => if String.eqb k key then Some n else assoc fs' key
  end.

Definition lookup (fs : FileSystem) (path : string) : option Node :=
  assoc fs (clean path).

Fixpoint store (fs : FileSystem) (key : string) (n : Node) : FileSystem :=
  match fs with
  | [] => [(key, n)]
  | (k, m) :: fs' =>
      if String.eqb k key then (k, n) :: fs' else (k, m) :: store fs' key n
  end.

(** [name] when [path] is [dir/name] and [name] has no separator. *)
Fixpoint child_name (dir path : string) : option string :=
  match dir, path with
  | EmptyString, String c name =>
      if isPathSeparator c
         && negb (String.eqb name "")
         && negb (existsb isPathSeparator (list_ascii_of_string name))
      then Some name else None
  | String a dir', String b path' =>
      if Ascii.eqb a b then child_name dir' path' else None
  | _, _ => None
  end.

Fixpoint children (dir : string) (fs : FileSystem) : list FileInfo :=
  match fs with
  | [] => []
  | (k, n) :: fs' =>
      match child_name dir k with
      | Some name =>
          {| fi_Name := name;
             fi_IsDir := match n with Dir => true | _ => false end |}
          :: children dir fs'
      | None => children dir fs'
      end
  end.

Definition ReadDir (fs : FileSystem) (target : string)
  : result (list FileInfo) :=
  match lookup fs target with
  | Some Dir => Ok (children (clean target) fs)
  | Some _ => Err ("readdirent " ++ target ++ ": not a directory")
  | None => Err ("open " ++ target ++ ": no such file or directory")
  end.

Definition Stat (fs : FileSystem) (path : string) : result FileInfo :=
  match lookup fs path with
  | Some (File _) => Ok {| fi_Name := filepath_Base path; fi_IsDir := false |}
  | Some Dir => Ok {| fi_Name := filepath_Base path; fi_IsDir := true |}
  | Some (NoAccess _) => Err ("stat " ++ path ++ ": permission denied")
  | None => Err ("stat " ++ path ++ ": no such file or directory")
  end.

Definition ReadFile (fs : FileSystem) (path : string) : result bytes :=
  match lookup fs path with
  | Some (File data) => Ok data
  | Some Dir => Err ("read " ++ path ++ ": is a directory")
  | Some (NoAccess _) => Err ("open " ++ path ++ ": permission denied")
  | None => Err ("open " ++ path ++ ": no such file or directory")
  end.

(** *** Images *)

Definition Pixels := list byte.

Definition Decode (data : bytes) : option Pixels * option error :=
  match data with
  | x89 :: pixels => (Some pixels, None)
  | _ => (None, Some "image: unknown format")
  end.

Definition Encode (img : Pixels) : bytes := x89 :: img.

Definition Open (fs : FileSystem) (path : string) : result Pixels :=
  match ReadFile fs path with
  | Err e => Err e
  | Ok data =>
      match Decode data with
      | (Some img, _) => Ok img
      | (None, _) => Err "image: unknown format"
      end
  end.

(** The mask over the source, as far as the source reaches. *)
Definition OverlayCenter (background mask : Pixels) (_ : Q) : Pixels :=
  (firstn (List.length background) mask
   ++ skipn (List.length mask) background)%list.

Definition supported (path : string) : bool :=
  existsb (strings_HasSuffix path) [".png"; ".jpg"; ".jpeg"; ".gif"].

(** The format is chosen by the extension before the file is created. *)
Definition Save (fs : FileSystem) (img : Pixels) (path : string)
  : FileSystem * option error :=
  if supported path then
    match lookup fs path with
    | Some Dir => (fs, Some ("open " ++ path ++ ": is a directory"))
    | Some (NoAccess _) => (fs, Some ("open " ++ path ++ ": permission denied"))
    | _ => (store fs (clean path) (File (Encode img)), None)
    end
  else (fs, Some "imaging: unsupported image format").

(** *** The flag set of [Run] *)

Definition noFlags : Flags :=
  {| fl_output := ""; fl_directory := ""; fl_force := false;
     fl_version := false |}.

Inductive FlagKind :=
| StringFlag (set : Flags -> string -> Flags)
| BoolFlag (set : Flags -> bool -> Flags).

Definition set_output (f : Flags) (v : string) : Flags :=
  {| fl_output := v; fl_directory := fl_directory f; fl_force := fl_force f;
     fl_version := fl_version f |}.
Definition set_directory (f : Flags) (v : string) : Flags :=
  {| fl_output := fl_output f; fl_directory := v; fl_force := fl_force f;
     fl_version := fl_version f |}.
Definition set_force (f : Flags) (v : bool) : Flags :=
  {| fl_output := fl_output f; fl_directory := fl_directory f; fl_force := v;
     fl_version := fl_version f |}.
Definition set_version (f : Flags) (v : bool) : Flags :=
  {| fl_output := fl_output f; fl_directory := fl_directory f;
     fl_force := fl_force f; fl_version := v |}.

Definition formal (name : string) : option FlagKind :=
  if String.eqb name "output" || String.eqb name "o" then
    Some (StringFlag set_output)
  else if String.eqb name "directory" || String.eqb name "d" then
    Some (StringFlag set_directory)
  else if String.eqb name "force" || String.eqb name "f" then
    Some (BoolFlag set_force)
  else if String.eqb name "version" then Some (BoolFlag set_version)
  else None.

Definition parseBool (s : string) : option bool :=
  if existsb (String.eqb s) ["1"; "t"; "T"; "TRUE"; "true"; "True"] then
    Some true
  else if existsb (String.eqb s) ["0"; "f"; "F"; "FALSE"; "false"; "False"]
  then Some false
  else None.

(** [name=value], cut at the first [=] that is not the first character. *)
Fixpoint cut_at_eq (s : string) : string * option string :=
  match s with
  | EmptyString => (EmptyString, None)
  | String c s' =>
      if Ascii.eqb c "="%char then (EmptyString, Some s')
      else let (n, v) := cut_at_eq s' in (String c n, v)
  end.

Definition usage (name : string) : string :=
  "Usage of " ++ name ++ ":" ++ newline.

Definition failf (name msg : string) : ParseResult :=
  ParseFailed msg [msg ++ newline; usage name].

Fixpoint parse (name : string) (args : list string) (f : Flags) : ParseResult :=
  match args with
  | [] => Parsed f
  | s :: rest =>
      match s with
      | String "-" (String c s2 as s1) =>
          if Ascii.eqb c "-"%char && String.eqb s2 "" then Parsed f
          else
            match (if Ascii.eqb c "-"%char then s2 else s1) with
            | EmptyString => failf name ("bad flag syntax: " ++ s)
            | String n0 tail =>
                if Ascii.eqb n0 "-"%char || Ascii.eqb n0 "="%char then
                  failf name ("bad flag syntax: " ++ s)
                else
                  let (n, value) := cut_at_eq tail in
                  let flagName := String n0 n in
                  match formal flagName with
                  | None =>
                      if String.eqb flagName "help" || String.eqb flagName "h"
                      then ParseFailed "flag: help requested" [usage name]
                      else failf name ("flag provided but not defined: -"
                                       ++ flagName)
                  | Some (BoolFlag set) =>
                      match value with
                      | None => parse name rest (set f true)
                      | Some v =>
                          match parseBool v with
                          | Some b => parse name rest (set f b)
                          | None =>
                              failf name ("invalid boolean value for -"
                                          ++ flagName ++ ": parse error")
                          end
                      end
                  | Some (StringFlag set) =>
                      match value with
                      | Some v => parse name rest (set f v)
                      | None =>
                          match rest with
                          | v :: rest' => parse name rest' (set f v)
                          | [] => failf name ("flag needs an argument: -"
                                              ++ flagName)
                          end
                      end
                  end
            end
      | _ => Parsed f
      end
  end.

(** *** The machine *)

Fixpoint asset (assets : list (string * bytes)) (name : string)
  : result bytes :=
  match assets with
  | [] => Err ("Asset " ++ name ++ " not found")
  | (k, data) :: assets' =>
      if String.eqb k name then Ok data else asset assets' name
  end.

(** The machine whose executable embeds [assets]. *)
Definition platform (assets : list (string * bytes)) : Platform :=
  {| Image := Pixels;
     NRGBA := Pixels;
     FS := FileSystem;
     Name := "lgtmgen";
     Version := "0.1.0";
     flag_Parse := fun args => parse "lgtmgen" args noFlags;
     images_Asset := asset assets;
     image_Decode := Decode;
     ioutil_ReadDir := ReadDir;
     imaging_Open := Open;
     imaging_OverlayCenter := OverlayCenter;
     os_Stat := Stat;
     imaging_Save := Save;
     ioutil_ReadFile := ReadFile |}.

(** The mask that ships with the program, and one that does not decode. *)
Definition mask : bytes := [x89; x4c; x47; x54; x4d].
Definition shipped : Platform := platform [(MaskImage, mask)].
Definition corrupt : Platform := platform [(MaskImage, [x00; x01])].
Definition stripped : Platform := platform [].

(** An input directory with two images, a text file and a directory, and
    an output directory that already holds [b.png]. *)
Definition disk : FileSystem :=
  [("in", Dir);
   ("in/a.png", File [x89; x01; x02; x03; x04; x05; x06; x07]);
   ("in/b.png", File [x89; x0a; x0b]);
   ("in/c.txt", File [x68; x69]);
   ("in/sub", Dir);
   ("out", Dir);
   ("out/b.png", File [x89; x09])].

(** The same after a first run that was given [c.txt] under both
    directories. *)
Definition disk_with_c : FileSystem :=
  (disk ++ [("out/c.txt", File [x68; x69])])%list.

(** The same with [out/b.png] out of reach of [stat]. *)
Definition disk_no_access : FileSystem :=
  [("in", Dir);
   ("in/b.png", File [x89; x0a; x0b]);
   ("out", Dir);
   ("out/b.png", NoAccess [x89; x09])].

(** What [Run] hands to its goroutines on [disk] for [-d in -o out], and
    the same for [in/b.png] alone. *)
Definition config_disk : @Config shipped :=
  @Build_Config shipped "out/" false (Some [x4c; x47; x54; x4d])
                ["in/a.png"; "in/b.png"; "in/c.txt"].

Definition config_b : @Config shipped :=
  @Build_Config shipped "out/" false (Some [x4c; x47; x54; x4d]) ["in/b.png"].

(** The same for [in/a.png] alone on the machine whose mask does not
    decode: [loadMaskImage] has returned a nil image. *)
Definition config_nil : @Config corrupt :=
  @Build_Config corrupt "out/" false None ["in/a.png"].



(** The disk after a run that wrote every destination. *)
Definition disk_full : FileSystem :=
  (disk ++ [("out/a.png", File [x89; x4c; x47; x54; x4d; x05; x06; x07]);
            ("out/c.txt", File [x68; x69])])%list.

(** An image whose name has no extension. *)
Definition disk_photo : FileSystem :=
  [("in", Dir); ("in/photo", File [x89; x01; x02; x03]); ("out", Dir)].

End Sim.

(** * Properties *)

Example addDirectorySuffix_tmp : addDirectorySuffix "/tmp" = "/tmp/".
Proof. reflexivity. Qed.

Example filepath_Base_examples :
  filepath_Base "in/a.png" = "a.png" /\ filepath_Base "" = "." /\
  filepath_Base "///" = "/" /\ filepath_Base "a/b//" = "b".
Proof. repeat split. Qed.


(** Goals about a run of the simulated machine are settled by running it. *)
Ltac by_run := vm_compute; first [reflexivity | discriminate | tauto].

(** ** Lists *)

Lemma nth_error_firstn_skipn (A : Type) (l : list A) (i : nat) (x : A) :
  nth_error l i = Some x ->
  l = (firstn i l ++ x :: skipn (S i) l)%list /\ List.length (firstn i l) = i.
Proof.
  revert i; induction l as [|a l IH]; intros [|i] H; simpl in *; try discriminate.
  - inversion H; subst; auto.
  - destruct (IH i H) as [E L]. split; [f_equal; exact E | f_equal; exact L].
Qed.

Lemma nth_error_middle (A : Type) (l1 l2 : list A) (x : A) :
  nth_error (l1 ++ x :: l2) (List.length l1) = Some x.
Proof. induction l1; simpl; auto. Qed.

Lemma firstn_skipn_middle (A : Type) (l1 l2 : list A) (x : A) :
  firstn (List.length l1) (l1 ++ x :: l2) = l1 /\
  skipn (S (List.length l1)) (l1 ++ x :: l2) = l2.
Proof.
  induction l1 as [|a l1 [IH1 IH2]]; simpl; auto.
  split; [f_equal; exact IH1 | exact IH2].
Qed.

Lemma Permutation_grow (A B : Type) (f : B -> list A)
      (a p x : list A) (l1 l2 : list B) (t t' : B) :
  Permutation a (p ++ flat_map f (l1 ++ t :: l2)) ->
  f t' = (f t ++ x)%list ->
  Permutation (a ++ x) (p ++ flat_map f (l1 ++ t' :: l2)).
Proof.
  intros H E.
  rewrite flat_map_app in *. simpl in *. rewrite E.
  apply Permutation_trans
    with (l' := ((p ++ flat_map f l1 ++ f t ++ flat_map f l2) ++ x)%list).
  - apply Permutation_app_tail. exact H.
  - rewrite <- !app_assoc. apply Permutation_app_head.
    apply Permutation_app_head. apply Permutation_app_head.
    apply Permutation_app_comm.
Qed.

(** ** One step of a goroutine *)

Section TaskFacts.
Context {P : Platform}.
Variable cfg : Config.

Lemma err_lines_advance t pc c :
  err_lines (advance t pc c) = (err_lines t ++ err_line_of c)%list.
Proof.
  unfold err_lines, advance; simpl. rewrite flat_map_app; simpl.
  now rewrite app_nil_r.
Qed.

Lemma out_lines_advance t pc c :
  out_lines (advance t pc c) = (out_lines t ++ out_line_of c)%list.
Proof.
  unfold out_lines, advance; simpl. rewrite flat_map_app; simpl.
  now rewrite app_nil_r.
Qed.

Ltac task_cases H :=
  unfold task_step in H;
  repeat match type of H with
         | context [match ?x with _ => _ end] => destruct x eqn:?
         | context [if ?b then _ else _] => destruct b eqn:?
         end;
  try discriminate; inversion H; subst; clear H.

Lemma task_step_spec fs t t' e :
  task_step cfg fs t = Some (t', e) ->
  t_filePath t' = t_filePath t /\
  Nat.b2n (running t)
  = (Nat.b2n (is_WgDone e) + Nat.b2n (running t'))%nat /\
  err_lines t' = (err_lines t ++ eff_err e)%list /\
  out_lines t' = (out_lines t ++ eff_out e)%list /\
  (forall v, e = Panic v -> t' = t /\ t_pc t = Panicked v).
Proof.
  intros H. unfold running.
  task_cases H; simpl;
    rewrite ?err_lines_advance, ?out_lines_advance, ?app_nil_r; simpl;
    repeat match goal with
           | |- _ /\ _ => split
           | E : t_pc _ = _ |- context [t_pc _] => rewrite E
           end; auto; try (intros w Hw; discriminate Hw).
  intros w Hw. inversion Hw; subst. auto.
Qed.

Lemma task_step_ok fs t t' e :
  task_ok cfg t -> task_step cfg fs t = Some (t', e) -> task_ok cfg t'.
Proof.
  unfold task_ok, task_step. intros Hok H.
  destruct (t_pc t) eqn:Epc; inversion Hok; subst; clear Hok;
    repeat match type of H with
           | context [match ?x with _ => _ end] => destruct x eqn:?
           | context [if ?b then _ else _] => destruct b eqn:?
           end;
    try discriminate; inversion H; subst; clear H;
    unfold advance; cbn [t_pc t_calls t_filePath];
    try match goal with
        | Hc : _ = t_calls _ |- _ => rewrite <- Hc; cbn [app]
        end.
  all: try (econstructor; eauto; fail).
  all: try (apply log_AtDone; econstructor; eauto; fail).
  - unfold unwind; simpl. rewrite <- H0. apply log_Panicking.
    unfold overlayImage in Heqo.
    destruct (imaging_Open fs (t_filePath t)); try discriminate.
    destruct (cfg_maskImage cfg); [discriminate|reflexivity].
  - match goal with
    | Hg : _ && _ = true |- _ => apply andb_prop in Hg; destruct Hg as [Hf Hn]
    end.
    rewrite Hf. apply log_AtLogExists. now destruct (cfg_force cfg).
  - rewrite Epc. now apply log_Panicked.
Qed.

End TaskFacts.

(** ** The invariant of the process *)

Section ProcessFacts.
Context {P : Platform}.
Variable cfg : Config.
Variable printed : list string.

Lemma step_inv s s' : step cfg s s' -> step_cases cfg s s'.
Proof.
  intros [tid H]. unfold step_thread in H.
  destruct (st_panic s) eqn:Ep; try discriminate.
  destruct tid as [|i].
  - now apply case_main.
  - destruct (nth_error (st_tasks s) i) as [t|] eqn:En; try discriminate.
    destruct (task_step cfg (st_fs s) t) as [[t' e]|] eqn:Et; try discriminate.
    inversion H; subst; clear H.
    destruct (nth_error_firstn_skipn _ _ _ _ En) as [E _].
    eapply case_task; eauto.
Qed.

Lemma step_task_intro s l1 t l2 t' e :
  st_panic s = None ->
  st_tasks s = (l1 ++ t :: l2)%list ->
  task_step cfg (st_fs s) t = Some (t', e) ->
  step_thread cfg (S (List.length l1)) s
  = Some (apply_effect s (l1 ++ t' :: l2) e).
Proof.
  intros Ep Et H. unfold step_thread. rewrite Ep, Et, nth_error_middle, H.
  destruct (firstn_skipn_middle _ l1 l2 t) as [E1 E2]. now rewrite E1, E2.
Qed.

Lemma outstanding_middle l1 (t : Task) l2 :
  outstanding (l1 ++ t :: l2)
  = (outstanding l1 + (if running t then 1 else 0) + outstanding l2)%nat.
Proof.
  unfold outstanding. rewrite filter_app, length_app. simpl.
  destruct (running t); simpl; lia.
Qed.

Lemma outstanding_zero tasks :
  outstanding tasks = 0%nat <-> Forall (fun t => running t = false) tasks.
Proof.
  unfold outstanding. induction tasks as [|t l IH]; simpl.
  - split; auto.
  - destruct (running t) eqn:E; simpl.
    + split; [discriminate|]. intros H. inversion H; congruence.
    + rewrite IH. split; [auto|]. intros H. now inversion H.
Qed.

Lemma outstanding_b2n l1 (t : Task) l2 :
  outstanding (l1 ++ t :: l2)
  = (outstanding l1 + Nat.b2n (running t) + outstanding l2)%nat.
Proof. rewrite outstanding_middle. now destruct (running t). Qed.

Lemma st_apply_effect s tasks' e :
  st_main (apply_effect s tasks' e) = st_main s /\
  st_tasks (apply_effect s tasks' e) = tasks' /\
  st_err (apply_effect s tasks' e) = (st_err s ++ eff_err e)%list /\
  st_out (apply_effect s tasks' e) = (st_out s ++ eff_out e)%list /\
  st_wg (apply_effect s tasks' e)
  = (if is_WgDone e then st_wg s - 1 else st_wg s)%Z.
Proof. destruct e; simpl; rewrite ?app_nil_r; auto. Qed.

Lemma Inv_initial fs : Inv cfg printed (initial cfg fs printed).
Proof.
  constructor; simpl; auto; try discriminate.
  rewrite app_nil_r. apply Permutation_refl.
Qed.

Lemma Inv_main_step s s' :
  Inv cfg printed s -> main_step s = Some s' -> Inv cfg printed s'.
Proof.
  intros I H. unfold main_step in H.
  destruct (st_main s) as [[|filePath rest]| |code] eqn:Em; try discriminate.
  - inversion H; subst; clear H.
    destruct I. constructor; simpl; auto; try discriminate.
    now rewrite Em in inv_paths0.
  - inversion H; subst; clear H.
    destruct I. rewrite Em in *. simpl in *.
    constructor; simpl; auto; try discriminate.
    + rewrite map_app, <- app_assoc. exact inv_paths0.
    + unfold outstanding in *. rewrite filter_app, length_app. simpl. lia.
    + apply Forall_app. split; auto. repeat constructor.
    + rewrite flat_map_app. simpl. now rewrite !app_nil_r.
    + rewrite flat_map_app. simpl. now rewrite !app_nil_r.
  - destruct (st_wg s =? 0)%Z eqn:Ez; try discriminate.
    inversion H; subst; clear H.
    destruct I. rewrite Em in *. simpl in *.
    constructor; simpl; auto.
    intros code Hc. inversion Hc; subst. split; auto.
    apply Z.eqb_eq in Ez. lia.
Qed.

Lemma Inv_task_step s l1 t l2 t' e :
  Inv cfg printed s ->
  st_tasks s = (l1 ++ t :: l2)%list ->
  task_step cfg (st_fs s) t = Some (t', e) ->
  Inv cfg printed (apply_effect s (l1 ++ t' :: l2) e).
Proof.
  intros I Et H.
  destruct (task_step_spec _ _ _ _ _ H) as (Hp & Hr & He & Ho & Hpanic).
  destruct (st_apply_effect s (l1 ++ t' :: l2) e) as (Am & At & Ae & Ao & Aw).
  destruct I. rewrite Et in *.
  assert (Hout : outstanding (l1 ++ t :: l2)
                 = (Nat.b2n (is_WgDone e)
                    + outstanding (l1 ++ t' :: l2))%nat).
  { rewrite !outstanding_b2n, Hr. lia. }
  assert (Hok : task_ok cfg t).
  { apply Forall_app in inv_logs0. destruct inv_logs0 as [_ F2].
    now inversion F2. }
  constructor; rewrite ?Am, ?At, ?Ae, ?Ao, ?Aw.
  - rewrite <- inv_paths0, !map_app. simpl. now rewrite Hp.
  - rewrite inv_wg0, Hout. destruct (is_WgDone e); cbn [Nat.b2n]; lia.
  - intros code Hc. destruct (inv_returned0 code Hc) as [Hcode Hz].
    split; [exact Hcode|]. lia.
  - intros v Hv. destruct e; simpl in Hv; eauto.
    + destruct (st_wg s - 1 <? 0)%Z eqn:Eneg; eauto.
      apply Z.ltb_lt in Eneg. cbn [is_WgDone Nat.b2n] in Hout. lia.
    + destruct (Hpanic v0 eq_refl) as [_ Epc].
      unfold task_ok in Hok. rewrite Epc in Hok. now inversion Hok.
  - apply Forall_app in inv_logs0. destruct inv_logs0 as [F1 F2].
    inversion F2; subst. apply Forall_app. split; auto.
    constructor; auto. eapply task_step_ok; eauto.
  - eapply Permutation_grow; eauto.
  - change (flat_map out_lines (l1 ++ t' :: l2))
      with ([] ++ flat_map out_lines (l1 ++ t' :: l2))%list.
    eapply Permutation_grow; eauto.
Qed.

Lemma Inv_step s s' : Inv cfg printed s -> step cfg s s' -> Inv cfg printed s'.
Proof.
  intros I H. destruct (step_inv _ _ H).
  - eapply Inv_main_step; eauto.
  - subst. eapply Inv_task_step; eauto.
Qed.

Lemma Inv_steps s s' : Inv cfg printed s -> steps cfg s s' -> Inv cfg printed s'.
Proof.
  intros I H. induction H as [|s1 s2 s3 H12 IH H23]; auto.
  apply Inv_step with (s := s2); auto.
Qed.

Lemma Inv_reachable fs s :
  steps cfg (initial cfg fs printed) s -> Inv cfg printed s.
Proof. apply Inv_steps, Inv_initial. Qed.

End ProcessFacts.

(** ** Every run comes to an end *)

Section Termination.
Context {P : Platform}.
Variable cfg : Config.

Lemma task_step_measure fs t t' e :
  task_step cfg fs t = Some (t', e) ->
  (exists v, e = Panic v) \/ (pc_measure (t_pc t') < pc_measure (t_pc t))%nat.
Proof.
  unfold task_step. intros H.
  destruct (t_pc t) eqn:Epc;
    repeat match type of H with
           | context [match ?x with _ => _ end] => destruct x eqn:?
           | context [if ?b then _ else _] => destruct b eqn:?
           end;
    try discriminate; inversion H; subst; clear H; simpl; eauto; right; lia.
Qed.

Lemma task_step_enabled fs t :
  running t = true -> exists r, task_step cfg fs t = Some r.
Proof.
  unfold running, task_step. intros H.
  destruct (t_pc t); try discriminate;
    repeat match goal with
           | |- context [match ?x with _ => _ end] => destruct x
           | |- context [if ?b then _ else _] => destruct b
           end; eauto.
Qed.

Lemma list_sum_middle (l1 l2 : list nat) (x : nat) :
  list_sum (l1 ++ x :: l2) = (list_sum l1 + x + list_sum l2)%nat.
Proof. rewrite list_sum_app. simpl. lia. Qed.

Lemma measure_step s s' : step cfg s s' -> (measure s' < measure s)%nat.
Proof.
  intros H. destruct (step_inv _ _ _ H) as [Ep Hm | l1 t l2 t' e Ep Et Ht Es].
  - unfold main_step in Hm. unfold measure. rewrite Ep.
    destruct (st_main s) as [[|filePath rest]| |code] eqn:Em; try discriminate.
    + inversion Hm; subst; simpl. rewrite Ep. simpl. lia.
    + inversion Hm; subst; simpl. rewrite Ep.
      rewrite map_app, list_sum_app. simpl. lia.
    + destruct (st_wg s =? 0)%Z; try discriminate.
      inversion Hm; subst; simpl. rewrite Ep. simpl. lia.
  - subst s'. unfold measure at 2. rewrite Ep, Et.
    rewrite map_app. simpl. rewrite list_sum_middle.
    destruct (task_step_measure _ _ _ _ Ht) as [[v Hv]|Hlt].
    + subst e. unfold measure. simpl. lia.
    + unfold measure.
      destruct (st_apply_effect s (l1 ++ t' :: l2) e) as (Am & At & _).
      rewrite Am, At.
      destruct (st_panic (apply_effect s (l1 ++ t' :: l2) e)); try lia.
      rewrite map_app. simpl. rewrite list_sum_middle. lia.
Qed.

Lemma run_sched_steps sched s : steps cfg s (run_sched cfg sched s).
Proof.
  assert (G : forall s0 s1, steps cfg s0 s1 ->
                            steps cfg s0 (run_sched cfg sched s1)).
  { induction sched as [|tid sched IH]; intros s0 s1 H01; simpl; auto.
    destruct (step_thread cfg tid s1) as [s2|] eqn:E; auto.
    apply IH. eapply steps_step; eauto. now exists tid. }
  apply G. constructor.
Qed.

Lemma steps_trans s1 s2 s3 :
  steps cfg s1 s2 -> steps cfg s2 s3 -> steps cfg s1 s3.
Proof.
  intros H12 H23. induction H23 as [|a b c Hab IH Hbc]; auto.
  apply steps_step with (s2 := b); auto.
Qed.

Lemma measure_steps s s' : steps cfg s s' -> (measure s' <= measure s)%nat.
Proof.
  intros H. induction H as [|s1 s2 s3 H12 IH H23]; auto.
  apply measure_step in H23. lia.
Qed.

Lemma run_sched_progress sched s tid :
  In tid sched -> step_thread cfg tid s <> None ->
  (measure (run_sched cfg sched s) < measure s)%nat.
Proof.
  induction sched as [|a sched IH]; intros Hin Hen; simpl in *; [tauto|].
  destruct (step_thread cfg a s) as [s1|] eqn:E.
  - assert (H1 : (measure s1 < measure s)%nat)
      by (apply measure_step; now exists a).
    pose proof (measure_steps _ _ (run_sched_steps sched s1)). lia.
  - destruct Hin as [->|Hin]; [congruence|]. now apply IH.
Qed.

Lemma status_stable s s' :
  status s <> InProgress -> step cfg s s' -> status s' <> InProgress.
Proof.
  intros Hs H. unfold status in *.
  destruct (step_inv _ _ _ H) as [Ep Hm | l1 t l2 t' e Ep Et Ht Es].
  - rewrite Ep in Hs. unfold main_step in Hm.
    destruct (st_main s) as [[|filePath rest]| |code]; try discriminate;
      congruence.
  - subst s'. rewrite Ep in Hs.
    destruct (st_apply_effect s (l1 ++ t' :: l2) e) as (Am & _).
    rewrite Am.
    destruct (st_panic (apply_effect s (l1 ++ t' :: l2) e)); try discriminate.
    destruct (st_main s); try discriminate; congruence.
Qed.

Lemma status_stable_steps s s' :
  status s <> InProgress -> steps cfg s s' -> status s' <> InProgress.
Proof.
  intros Hs H. induction H as [|a b c Hab IH Hbc]; auto.
  apply status_stable with (s := b); auto.
Qed.

Lemma outstanding_pos tasks :
  (0 < outstanding tasks)%nat ->
  exists l1 t l2, tasks = (l1 ++ t :: l2)%list /\ running t = true.
Proof.
  unfold outstanding. induction tasks as [|t l IH]; simpl; [lia|].
  destruct (running t) eqn:Er.
  - intros _. now exists [], t, l.
  - intros H. destruct (IH H) as (l1 & t0 & l2 & E & R).
    exists (t :: l1), t0, l2. subst; auto.
Qed.

(** A run that has not ended has a thread that can move. *)
Lemma progress printed s :
  Inv cfg printed s -> status s = InProgress ->
  exists tid, (tid < S (List.length (st_tasks s)))%nat /\
              step_thread cfg tid s <> None.
Proof.
  intros I Hs. unfold status in Hs.
  destruct (st_panic s) eqn:Ep; try discriminate.
  destruct (st_main s) as [rest| |code] eqn:Em; try discriminate.
  - exists 0%nat. split; [lia|]. unfold step_thread, main_step.
    rewrite Ep, Em. destruct rest; discriminate.
  - destruct (st_wg s =? 0)%Z eqn:Ez.
    + exists 0%nat. split; [lia|]. unfold step_thread, main_step.
      rewrite Ep, Em, Ez. discriminate.
    + apply Z.eqb_neq in Ez. pose proof (inv_wg _ _ _ I) as Hw.
      destruct (outstanding_pos (st_tasks s)) as (l1 & t & l2 & E & R); [lia|].
      destruct (task_step_enabled (st_fs s) t R) as [[t' e] Ht].
      exists (S (List.length l1)). split.
      * rewrite E, length_app. simpl. lia.
      * erewrite step_task_intro; eauto. discriminate.
Qed.

Lemma run_rounds_steps n s : steps cfg s (run_rounds cfg n s).
Proof.
  revert s; induction n as [|n IH]; intros s; cbn [run_rounds]; [constructor|].
  eapply steps_trans; [apply run_sched_steps | apply IH].
Qed.

Lemma run_rounds_terminal printed n s :
  Inv cfg printed s -> (measure s <= n)%nat ->
  status (run_rounds cfg n s) <> InProgress.
Proof.
  revert s; induction n as [|n IH]; intros s I Hm; cbn [run_rounds].
  - unfold measure, status in *. destruct (st_panic s); [discriminate|lia].
  - destruct (status s) eqn:Es.
    + destruct (progress _ _ I Es) as (tid & Hlt & Hen).
      apply IH.
      * eapply Inv_steps; eauto. apply run_sched_steps.
      * assert (In tid (seq 0 (S (List.length (st_tasks s)))))
          by (apply in_seq; lia).
        pose proof (run_sched_progress _ s tid H Hen). lia.
    + eapply status_stable_steps; [|apply run_rounds_steps with (n := S n)].
      congruence.
    + eapply status_stable_steps; [|apply run_rounds_steps with (n := S n)].
      congruence.
Qed.

Lemma run_to_end_steps sched s : steps cfg s (run_to_end cfg sched s).
Proof.
  unfold run_to_end.
  eapply steps_trans; [apply run_sched_steps | apply run_rounds_steps].
Qed.

Lemma run_to_end_terminal printed sched s :
  Inv cfg printed s -> status (run_to_end cfg sched s) <> InProgress.
Proof.
  intros I. unfold run_to_end. eapply run_rounds_terminal; auto.
  eapply Inv_steps; eauto. apply run_sched_steps.
Qed.

End Termination.

(** [Run] under a schedule is one of the runs. *)
Lemma Run_RunsTo {P : Platform} sched args fs : RunsTo args fs (Run sched args fs).
Proof.
  unfold Run. destruct (Run_init args fs) as [[code|v|cfg] printed] eqn:E.
  - now apply RunsTo_return.
  - now apply RunsTo_panic.
  - eapply RunsTo_dispatch; eauto.
    + apply run_to_end_steps.
    + eapply run_to_end_terminal. apply Inv_initial.
Qed.

(** ** The sequential part of [Run] *)

Section InitFacts.
Context {P : Platform}.

Lemma ExitCodeError_is_2 : ExitCodeError = 2%Z.
Proof. reflexivity. Qed.

(** [Run] reaches its loop exactly when the flags parse, no version is
    asked for, both directories are given, the asset is found and the input
    directory can be read. *)
Lemma Run_init_dispatch args fs cfg printed :
  Run_init args fs = (InitDispatch cfg, printed) ->
  exists a0 rest f data files,
    args = a0 :: rest /\
    flag_Parse rest = Parsed f /\
    fl_version f = false /\
    fl_directory f <> "" /\
    fl_output f <> "" /\
    images_Asset MaskImage = Ok data /\
    ioutil_ReadDir fs (addDirectorySuffix (fl_directory f)) = Ok files /\
    cfg = {| cfg_output := addDirectorySuffix (fl_output f);
             cfg_force := fl_force f;
             cfg_maskImage := fst (image_Decode data);
             cfg_filePaths :=
               readImagePaths_loop (addDirectorySuffix (fl_directory f)) files |}
    /\ printed = [].
Proof.
  unfold Run_init, loadMaskImage, readImagePaths. intros H.
  destruct args as [|a0 rest]; [discriminate|].
  destruct (flag_Parse rest) as [f|err pr] eqn:Ef; [|discriminate].
  destruct (fl_version f) eqn:Ev; [discriminate|].
  destruct (String.eqb (fl_directory f) "") eqn:Ed; [discriminate|].
  destruct (String.eqb (fl_output f) "") eqn:Eo; [discriminate|].
  destruct (images_Asset MaskImage) as [data|e] eqn:Ea; [|discriminate].
  destruct (ioutil_ReadDir fs (addDirectorySuffix (fl_directory f)))
    as [files|e] eqn:Er; [|discriminate].
  inversion H; subst; clear H.
  apply String.eqb_neq in Ed, Eo.
  exists a0, rest, f, data, files. repeat split; auto.
Qed.

Lemma RunsTo_dispatch_inv args fs cfg printed o :
  Run_init args fs = (InitDispatch cfg, printed) ->
  RunsTo args fs o ->
  exists s, steps cfg (initial cfg fs printed) s /\
            status s <> InProgress /\ o = observe s.
Proof.
  intros E H. destruct H as [code pr E'|v pr E'|cfg' pr s E' Hs Ht];
    rewrite E in E'; inversion E'; subst; eauto.
Qed.

Lemma RunsTo_return_inv args fs code printed o :
  Run_init args fs = (InitReturn code, printed) ->
  RunsTo args fs o ->
  o = {| o_status := Exited code; o_tasks := []; o_fs := fs;
         o_err := printed; o_out := [] |}.
Proof.
  intros E H. destruct H as [code' pr E'|v pr E'|cfg' pr s E' Hs Ht];
    rewrite E in E'; inversion E'; subst; eauto.
Qed.

Lemma RunsTo_panic_inv args fs v printed o :
  Run_init args fs = (InitPanic v, printed) ->
  RunsTo args fs o ->
  o = {| o_status := Crashed v; o_tasks := []; o_fs := fs;
         o_err := printed; o_out := [] |}.
Proof.
  intros E H. destruct H as [code' pr E'|v' pr E'|cfg' pr s E' Hs Ht];
    rewrite E in E'; inversion E'; subst; eauto.
Qed.

End InitFacts.

(** ** How a run ends *)

Section Endings.
Context {P : Platform}.

(** A run that has ended either died on a nil mask or returned
    [ExitCodeOK] with every path dispatched and the deferred [wg.Done()] of
    every goroutine run. *)
Lemma terminal_cases cfg printed s :
  Inv cfg printed s -> status s <> InProgress ->
  (exists v, status s = Crashed v /\ cfg_maskImage cfg = None) \/
  (status s = Exited ExitCodeOK /\
   st_main s = Returned ExitCodeOK /\
   Forall (fun t => running t = false) (st_tasks s) /\
   map t_filePath (st_tasks s) = cfg_filePaths cfg).
Proof.
  intros I Hs. unfold status in *.
  destruct (st_panic s) as [v|] eqn:Ep.
  - left. exists v. split; auto. eapply inv_panic; eauto.
  - right. destruct (st_main s) as [rest| |code] eqn:Em; try congruence.
    destruct (inv_returned _ _ _ I code Em) as [-> Hz].
    repeat split; auto.
    + now apply outstanding_zero.
    + pose proof (inv_paths _ _ _ I) as Hp. rewrite Em in Hp. simpl in Hp.
      now rewrite app_nil_r in Hp.
Qed.

(** With a mask, a goroutine whose [wg.Done()] has run has returned from
    its body. *)
Lemma done_with_mask cfg t :
  task_ok cfg t -> cfg_maskImage cfg <> None -> running t = false ->
  t_pc t = Finished.
Proof.
  unfold task_ok, running. intros Hok Hm Hr.
  destruct (t_pc t); try discriminate; auto.
  inversion Hok; contradiction.
Qed.

Lemma all_done_with_mask cfg printed s :
  Inv cfg printed s -> cfg_maskImage cfg <> None ->
  Forall (fun t => running t = false) (st_tasks s) ->
  Forall (fun t => t_pc t = Finished) (st_tasks s).
Proof.
  intros I Hm Hr. pose proof (inv_logs _ _ _ I) as Hl.
  rewrite Forall_forall in *. intros t Ht.
  apply (done_with_mask cfg); auto.
Qed.

Lemma Fatal_init args fs st :
  Fatal args fs st ->
  exists printed,
    (exists code, st = Exited code /\
                  Run_init args fs = (InitReturn code, printed)) \/
    (exists v, st = Crashed v /\ Run_init args fs = (InitPanic v, printed)).
Proof.
  intros H. unfold Run_init, loadMaskImage, readImagePaths.
  destruct H; subst;
    repeat match goal with
           | H : _ = _ |- _ => rewrite H
           | H : _ <> "" |- _ => apply String.eqb_neq in H
           end; simpl; eauto.
  destruct (String.eqb (fl_directory f) ""); eauto.
Qed.

End Endings.

(** ** C1: fatal conditions *)

(** C1, as amended.  Under each fatal condition no goroutine is started
    and nothing is written to the file system or to standard output.  A
    flag-parse failure, a missing [-directory] or [-output] (when [-version]
    is not set) and a missing mask asset make [Run] return [ExitCodeError],
    which is 2; an input directory that cannot be read makes
    [readImagePaths] panic, so that [Run] does not return a code at all. *)
Theorem C1_fatal_aborts_before_dispatch {P : Platform}
        (args : list string) (fs : FS) (st : Status) (o : Outcome) :
  Fatal args fs st ->
  RunsTo args fs o ->
  o_status o = st /\ o_tasks o = [] /\ o_fs o = fs /\ o_out o = [] /\
  (st = Exited 2%Z \/ exists e, st = Crashed e).
Proof.
  intros HF HR.
  assert (Hst : st = Exited 2%Z \/ exists e, st = Crashed e)
    by (destruct HF; eauto).
  destruct (Fatal_init _ _ _ HF) as [printed [[code [-> E]]|[v [-> E]]]].
  - rewrite (RunsTo_return_inv _ _ _ _ _ E HR). simpl. auto.
  - rewrite (RunsTo_panic_inv _ _ _ _ _ E HR). simpl. auto.
Qed.

Lemma C1_fatal_aborts_before_dispatch_witness :
  o_status (Run (P := Sim.shipped) [] ["lgtmgen"; "-o"; "out"] Sim.disk)
  = Exited ExitCodeError /\
  o_status (Run (P := Sim.shipped) []
                ["lgtmgen"; "-d"; "nowhere"; "-o"; "out"] Sim.disk)
  = Crashed "open nowhere/: no such file or directory".
Proof.
  split.
  - apply (C1_fatal_aborts_before_dispatch
             (P := Sim.shipped) ["lgtmgen"; "-o"; "out"] Sim.disk).
    + eapply MissingDirectory; reflexivity.
    + apply Run_RunsTo.
  - apply (C1_fatal_aborts_before_dispatch
             (P := Sim.shipped)
             ["lgtmgen"; "-d"; "nowhere"; "-o"; "out"] Sim.disk).
    + eapply UnreadableDirectory; try reflexivity; discriminate.
    + apply Run_RunsTo.
Defined.

(** C1 as stated fails: without [-directory] the run returns 2, not 1;
    with [-version] it returns 0 although [-directory] is missing; a
    directory that cannot be read ends the run in a panic; and a mask that
    does not decode does not stop [Run] from starting goroutines. *)
Lemma C1_counterexample :
  (let args := ["lgtmgen"; "-o"; "out"] in
   (exists f, flag_Parse (Platform := Sim.shipped) (tl args) = Parsed f /\
              fl_directory f = "") /\
   exists o, RunsTo (P := Sim.shipped) args Sim.disk o /\
             o_status o = Exited 2%Z /\ o_status o <> Exited 1%Z) /\
  (let args := ["lgtmgen"; "-version"] in
   (exists f, flag_Parse (Platform := Sim.shipped) (tl args) = Parsed f /\
              fl_directory f = "") /\
   exists o, RunsTo (P := Sim.shipped) args Sim.disk o /\
             o_status o = Exited 0%Z) /\
  (let args := ["lgtmgen"; "-d"; "nowhere"; "-o"; "out"] in
   (exists e, ioutil_ReadDir (Platform := Sim.shipped) Sim.disk "nowhere/"
              = Err e) /\
   exists o v, RunsTo (P := Sim.shipped) args Sim.disk o /\
               o_status o = Crashed v) /\
  (let args := ["lgtmgen"; "-d"; "in"; "-o"; "out"] in
   (exists data e, images_Asset (Platform := Sim.corrupt) MaskImage = Ok data /\
                   snd (image_Decode (Platform := Sim.corrupt) data) = Some e) /\
   exists o, RunsTo (P := Sim.corrupt) args Sim.disk o /\
             o_tasks o <> []).
Proof.
  repeat split.
  - eexists; split; reflexivity.
  - eexists; split; [apply (Run_RunsTo []) | split; by_run].
  - eexists; split; reflexivity.
  - eexists; split; [apply (Run_RunsTo []) | by_run].
  - eexists; reflexivity.
  - do 2 eexists; split; [apply (Run_RunsTo []) | by_run].
  - do 2 eexists; split; reflexivity.
  - eexists; split; [apply (Run_RunsTo []) | by_run].
Qed.

(** ** C2: the exit code of a run that reached its loop *)

(** C2.  When the flags parse, the mask is loaded and the input directory
    is enumerated, every complete run of [Run] returns [ExitCodeOK], which
    is 0, with a goroutine started for each path and every goroutine
    finished, whatever each of them met; every partial run can be brought to
    that end under any schedule, and every step brings it nearer. *)
Theorem C2_success_exit_code {P : Platform}
        (args : list string) (fs : FS) (cfg : Config) (printed : list string) :
  Run_init args fs = (InitDispatch cfg, printed) ->
  cfg_maskImage cfg <> None ->
  ExitCodeOK = 0%Z /\
  (forall o, RunsTo args fs o ->
             o_status o = Exited ExitCodeOK /\
             map t_filePath (o_tasks o) = cfg_filePaths cfg /\
             Forall (fun t => t_pc t = Finished) (o_tasks o)) /\
  (forall sched, o_status (Run sched args fs) = Exited ExitCodeOK) /\
  (forall s sched,
      steps cfg (initial cfg fs printed) s ->
      steps cfg s (run_to_end cfg sched s) /\
      status (run_to_end cfg sched s) = Exited ExitCodeOK) /\
  (forall s s',
      steps cfg (initial cfg fs printed) s -> step cfg s s' ->
      (measure s' < measure s)%nat).
Proof.
  intros E Hmask.
  assert (Hall : forall o, RunsTo args fs o ->
             o_status o = Exited ExitCodeOK /\
             map t_filePath (o_tasks o) = cfg_filePaths cfg /\
             Forall (fun t => t_pc t = Finished) (o_tasks o)).
  { intros o HR.
    destruct (RunsTo_dispatch_inv _ _ _ _ _ E HR) as (s & Hs & Ht & ->).
    pose proof (Inv_reachable _ _ _ _ Hs) as I.
    destruct (terminal_cases _ _ _ I Ht) as [(v & _ & Hn)|(H1 & _ & H2 & H3)];
      [contradiction|].
    simpl. split; [exact H1|]. split; [exact H3|].
    eapply all_done_with_mask; eauto. }
  split; [reflexivity|]. split; [exact Hall|]. split; [|split].
  - intros sched. apply Hall. apply Run_RunsTo.
  - intros s sched Hs. split; [apply run_to_end_steps|].
    pose proof (Inv_reachable _ _ _ _ Hs) as I.
    assert (I' : Inv cfg printed (run_to_end cfg sched s))
      by (eapply Inv_steps; eauto; apply run_to_end_steps).
    pose proof (run_to_end_terminal _ _ sched _ I) as Ht.
    destruct (terminal_cases _ _ _ I' Ht) as [(v & _ & Hn)|(H1 & _)];
      [contradiction|exact H1].
  - intros s s' _ Hstep. now apply measure_step with (cfg := cfg).
Qed.

Lemma C2_success_exit_code_witness :
  o_status (Run (P := Sim.shipped) [3; 1; 0; 0; 2; 3]%nat
                ["lgtmgen"; "-d"; "in"; "-o"; "out"] Sim.disk)
  = Exited ExitCodeOK.
Proof.
  destruct (C2_success_exit_code
              (P := Sim.shipped) ["lgtmgen"; "-d"; "in"; "-o"; "out"] Sim.disk
              _ _ eq_refl) as (_ & _ & H & _).
  - discriminate.
  - apply H.
Defined.

(** ** C3: loading the mask *)

(** C3, as amended.  [loadMaskImage] returns an error exactly when
    [images.Asset] does; when the asset is there it returns whatever image
    [image.Decode] gave, with a nil error.  When [Run] comes to load the mask
    and [loadMaskImage] returns an error, [Run] reports it, returns
    [ExitCodeError] and has started no goroutine.  When the asset is there,
    whether or not its bytes decode, [Run] goes on: it enumerates the input
    directory and enters its loop with the image [image.Decode] gave, no run
    returns [ExitCodeError], and a run that returns has started a goroutine
    for every enumerated path. *)
Theorem C3_mask_load_error {P : Platform} :
  (forall maskImage,
      (exists e, snd (loadMaskImage maskImage) = Some e) <->
      (exists e, images_Asset maskImage = Err e)) /\
  (forall maskImage data,
      images_Asset maskImage = Ok data ->
      loadMaskImage maskImage = (fst (image_Decode data), None)) /\
  (forall args fs a0 rest f e o,
      args = a0 :: rest ->
      flag_Parse rest = Parsed f ->
      fl_version f = false ->
      fl_directory f <> "" ->
      fl_output f <> "" ->
      snd (loadMaskImage MaskImage) = Some e ->
      RunsTo args fs o ->
      o_status o = Exited ExitCodeError /\ o_tasks o = [] /\
      o_err o = ["fatal error " ++ e ++ "." ++ newline]) /\
  (forall args fs a0 rest f data files,
      args = a0 :: rest ->
      flag_Parse rest = Parsed f ->
      fl_version f = false ->
      fl_directory f <> "" ->
      fl_output f <> "" ->
      images_Asset MaskImage = Ok data ->
      ioutil_ReadDir fs (addDirectorySuffix (fl_directory f)) = Ok files ->
      Run_init args fs
      = (InitDispatch
           {| cfg_output := addDirectorySuffix (fl_output f);
              cfg_force := fl_force f;
              cfg_maskImage := fst (image_Decode data);
              cfg_filePaths :=
                readImagePaths_loop (addDirectorySuffix (fl_directory f))
                                    files |}, []) /\
      forall o,
        RunsTo args fs o ->
        o_status o <> Exited ExitCodeError /\
        (forall code,
            o_status o = Exited code ->
            map t_filePath (o_tasks o)
            = readImagePaths_loop (addDirectorySuffix (fl_directory f)) files)).
Proof.
  split; [|split; [|split]].
  - intros m. unfold loadMaskImage.
    destruct (images_Asset m) as [data|e]; simpl; split; intros [e' H];
      try discriminate; eauto.
  - intros m data H. unfold loadMaskImage. now rewrite H.
  - intros args fs a0 rest f e o -> Hf Hv Hd Ho Hm HR.
    assert (E : Run_init (a0 :: rest) fs
                = (InitReturn ExitCodeError,
                   ["fatal error " ++ e ++ "." ++ newline])).
    { unfold Run_init. rewrite Hf, Hv.
      apply String.eqb_neq in Hd, Ho. rewrite Hd, Ho.
      destruct (loadMaskImage MaskImage) as [img [e'|]]; simpl in Hm;
        [inversion Hm; subst; reflexivity | discriminate]. }
    rewrite (RunsTo_return_inv _ _ _ _ _ E HR). simpl. auto.
  - intros args fs a0 rest f data files -> Hf Hv Hd Ho Ha Hr.
    assert (E : Run_init (a0 :: rest) fs
                = (InitDispatch
                     {| cfg_output := addDirectorySuffix (fl_output f);
                        cfg_force := fl_force f;
                        cfg_maskImage := fst (image_Decode data);
                        cfg_filePaths :=
                          readImagePaths_loop
                            (addDirectorySuffix (fl_directory f)) files |},
                   [])).
    { unfold Run_init, loadMaskImage, readImagePaths.
      apply String.eqb_neq in Hd, Ho.
      now rewrite Hf, Hv, Hd, Ho, Ha, Hr. }
    split; [exact E|]. intros o HR.
    destruct (RunsTo_dispatch_inv _ _ _ _ _ E HR) as (s & Hs & Ht & ->).
    pose proof (Inv_reachable _ _ _ _ Hs) as I.
    destruct (terminal_cases _ _ _ I Ht) as [(v & Hc & _)|(H1 & _ & _ & H3)];
      simpl; rewrite ?Hc, ?H1; split.
    + discriminate.
    + intros code Hcode. discriminate.
    + intros H. inversion H as [H'].
    + intros code _. exact H3.
Qed.

Lemma C3_mask_load_error_witness :
  let o := Run (P := Sim.stripped) [] ["lgtmgen"; "-d"; "in"; "-o"; "out"]
               Sim.disk in
  o_status o = Exited ExitCodeError /\ o_tasks o = [] /\
  o_err o = ["fatal error " ++ "Asset images/lgtm_mask.png not found"
             ++ "." ++ newline].
Proof.
  destruct (C3_mask_load_error (P := Sim.stripped)) as (_ & _ & H & _).
  apply (H ["lgtmgen"; "-d"; "in"; "-o"; "out"] Sim.disk "lgtmgen"
           ["-d"; "in"; "-o"; "out"]
           {| fl_output := "out"; fl_directory := "in"; fl_force := false;
              fl_version := false |}
           "Asset images/lgtm_mask.png not found");
    try reflexivity; try discriminate.
  apply Run_RunsTo.
Defined.

(** C3 as stated fails: the bytes of the asset do not decode, and
    [loadMaskImage] returns a nil image with a nil error; [Run] goes on to
    start goroutines and does not return the error code. *)
Lemma C3_counterexample :
  (exists data e,
      images_Asset (Platform := Sim.corrupt) MaskImage = Ok data /\
      image_Decode (Platform := Sim.corrupt) data = (None, Some e)) /\
  loadMaskImage (P := Sim.corrupt) MaskImage = (None, None) /\
  exists o,
    RunsTo (P := Sim.corrupt) ["lgtmgen"; "-d"; "in"; "-o"; "out"] Sim.disk o /\
    o_tasks o <> [] /\ o_status o <> Exited ExitCodeError.
Proof.
  split; [|split].
  - do 2 eexists; split; reflexivity.
  - reflexivity.
  - eexists; split; [apply (Run_RunsTo []) | split; by_run].
Qed.

(** ** C8: the barrier *)

Lemma finished_log {P : Platform} cfg t :
  task_ok cfg t -> t_pc t = Finished ->
  exists calls, body_log cfg (t_filePath t) calls /\
                t_calls t = (calls ++ [CallDone])%list.
Proof.
  unfold task_ok. intros H E. rewrite E in H. inversion H; subst. eauto.
Qed.

(** A goroutine whose [wg.Done()] has run has either returned from its
    body or is unwinding from a panic on a nil mask. *)
Lemma done_log {P : Platform} cfg t :
  task_ok cfg t -> running t = false ->
  (t_pc t = Finished /\
   exists calls, body_log cfg (t_filePath t) calls /\
                 t_calls t = (calls ++ [CallDone])%list) \/
  (exists v, t_pc t = Panicked v /\ t_calls t = [CallDone] /\
             cfg_maskImage cfg = None).
Proof.
  unfold task_ok, running. intros Hok Hr.
  destruct (t_pc t) eqn:E; try discriminate.
  - right. exists v. inversion Hok; subst. auto.
  - left. split; auto. inversion Hok; subst. eauto.
Qed.

(** C8.  In every state of a run the counter of the wait group is the
    number of goroutines whose [wg.Done()] has not run; [wg.Wait()] lets
    [Run] go on only when that number is zero; so in every state in which
    [Run] has returned, a goroutine has been started for every path and each
    of them has called [wg.Done()]: after making its way through the body
    (success, skip or failure), or, when the mask is nil, while it unwinds
    from the panic in [overlayImage]. *)
Theorem C8_wait_group_barrier {P : Platform}
        (cfg : Config) (fs : FS) (printed : list string) (s : State) :
  steps cfg (initial cfg fs printed) s ->
  st_wg s = Z.of_nat (outstanding (st_tasks s)) /\
  (st_main s = Waiting ->
   (main_step s <> None <-> outstanding (st_tasks s) = 0%nat)) /\
  (forall code,
      st_main s = Returned code ->
      map t_filePath (st_tasks s) = cfg_filePaths cfg /\
      Forall (fun t =>
                In CallDone (t_calls t) /\
                ((t_pc t = Finished /\
                  exists calls, body_log cfg (t_filePath t) calls /\
                                t_calls t = (calls ++ [CallDone])%list) \/
                 (exists v, t_pc t = Panicked v /\ t_calls t = [CallDone] /\
                            cfg_maskImage cfg = None)))
             (st_tasks s)).
Proof.
  intros Hs. pose proof (Inv_reachable _ _ _ _ Hs) as I.
  split; [apply (inv_wg _ _ _ I)|]. split.
  - intros Em. unfold main_step. rewrite Em, (inv_wg _ _ _ I).
    destruct (Z.of_nat (outstanding (st_tasks s)) =? 0)%Z eqn:Ez.
    + apply Z.eqb_eq in Ez. split; [lia|discriminate].
    + apply Z.eqb_neq in Ez. split; [congruence|lia].
  - intros code Em.
    destruct (inv_returned _ _ _ I code Em) as [-> Hz].
    pose proof (inv_paths _ _ _ I) as Hp. rewrite Em in Hp. simpl in Hp.
    rewrite app_nil_r in Hp. split; [exact Hp|].
    apply outstanding_zero in Hz. pose proof (inv_logs _ _ _ I) as Hl.
    rewrite Forall_forall in *. intros t Ht.
    destruct (done_log cfg t (Hl t Ht) (Hz t Ht))
      as [(Epc & calls & Hb & Hc)|(v & Epc & Hc & Hm)].
    + split; [|left; eauto]. rewrite Hc. apply in_or_app. right. now left.
    + split; [|right; eauto]. rewrite Hc. now left.
Qed.

(** With a nil mask and a source that decodes, the goroutine panics in
    [overlayImage]; its deferred [wg.Done()] runs, so [Run] can pass
    [wg.Wait()] and return before the runtime ends the process. *)
Example nil_mask_run_may_return :
  let s := run_sched Sim.config_nil [0; 0; 1; 1; 0]%nat
                     (initial Sim.config_nil Sim.disk []) in
  st_main s = Returned ExitCodeOK /\ st_wg s = 0%Z /\ st_panic s = None /\
  map t_calls (st_tasks s) = [[CallDone]] /\
  st_err s = [] /\ st_out s = [] /\
  status (run_sched Sim.config_nil [1]%nat s)
  = Crashed "invalid memory address or nil pointer dereference".
Proof. repeat split; by_run. Qed.

Lemma C8_wait_group_barrier_witness :
  let s := run_sched Sim.config_b [0; 0; 1; 1; 0; 1]%nat
                     (initial Sim.config_b Sim.disk []) in
  st_wg s = Z.of_nat (outstanding (st_tasks s)) /\
  (st_main s = Waiting ->
   (main_step s <> None <-> outstanding (st_tasks s) = 0%nat)).
Proof.
  intros s.
  destruct (C8_wait_group_barrier Sim.config_b Sim.disk [] s)
    as (H1 & H2 & _).
  - apply run_sched_steps.
  - split; assumption.
Defined.

(** ** C6: enumeration and dispatch *)

Lemma readImagePaths_loop_filter {P : Platform} target files :
  readImagePaths_loop target files
  = map (fun fi => target ++ fi_Name fi)
        (filter (fun fi => negb (fi_IsDir fi)) files).
Proof.
  induction files as [|fi files IH]; simpl; auto.
  destruct (fi_IsDir fi); simpl; [|f_equal]; exact IH.
Qed.

(** C6.  [readImagePaths] returns one path, the directory followed by the
    entry's name, for each entry of [ioutil.ReadDir] that is not a
    directory, in order and with no other filter; and it panics when the
    directory cannot be read.  [Run] starts its goroutines for these paths in
    that order, never more than one for a path, and when it has returned
    there is exactly one goroutine for each of them. *)
Theorem C6_one_task_per_file {P : Platform}
        (args : list string) (fs : FS) (cfg : Config) (printed : list string) :
  Run_init args fs = (InitDispatch cfg, printed) ->
  (forall fs' target,
      readImagePaths fs' target
      = match ioutil_ReadDir fs' target with
        | Ok files =>
            Returns (map (fun fi => target ++ fi_Name fi)
                         (filter (fun fi => negb (fi_IsDir fi)) files))
        | Err e => Panics e
        end) /\
  exists f files,
    flag_Parse (tl args) = Parsed f /\
    ioutil_ReadDir fs (addDirectorySuffix (fl_directory f)) = Ok files /\
    cfg_filePaths cfg
    = map (fun fi => addDirectorySuffix (fl_directory f) ++ fi_Name fi)
          (filter (fun fi => negb (fi_IsDir fi)) files) /\
    (forall s, steps cfg (initial cfg fs printed) s ->
               (map t_filePath (st_tasks s) ++ remaining (st_main s))%list
               = cfg_filePaths cfg) /\
    (forall o code,
        RunsTo args fs o -> o_status o = Exited code ->
        map t_filePath (o_tasks o) = cfg_filePaths cfg /\
        List.length (o_tasks o)
        = List.length (filter (fun fi => negb (fi_IsDir fi)) files)).
Proof.
  intros E. split.
  - intros fs' target. unfold readImagePaths.
    destruct (ioutil_ReadDir fs' target); auto.
    now rewrite readImagePaths_loop_filter.
  - destruct (Run_init_dispatch _ _ _ _ E)
      as (a0 & rest & f & data & files & -> & Hf & Hv & Hd & Ho & Ha & Hr & Hc & Hp).
    exists f, files. simpl.
    assert (Hpaths : cfg_filePaths cfg
              = map (fun fi => addDirectorySuffix (fl_directory f) ++ fi_Name fi)
                    (filter (fun fi => negb (fi_IsDir fi)) files)).
    { rewrite Hc. simpl. apply readImagePaths_loop_filter. }
    repeat split; auto.
    + intros s Hs. apply (inv_paths _ _ _ (Inv_reachable _ _ _ _ Hs)).
    + destruct (RunsTo_dispatch_inv _ _ _ _ _ E H) as (s & Hs & Ht & ->).
      pose proof (Inv_reachable _ _ _ _ Hs) as I.
      destruct (terminal_cases _ _ _ I Ht) as [(v & Hv' & _)|(_ & _ & _ & H3)];
        [simpl in H0; congruence | exact H3].
    + destruct (RunsTo_dispatch_inv _ _ _ _ _ E H) as (s & Hs & Ht & ->).
      pose proof (Inv_reachable _ _ _ _ Hs) as I.
      destruct (terminal_cases _ _ _ I Ht) as [(v & Hv' & _)|(_ & _ & _ & H3)];
        [simpl in H0; congruence|].
      simpl. rewrite <- (length_map t_filePath), H3, Hpaths.
      now rewrite length_map.
Qed.

Lemma C6_one_task_per_file_witness :
  let o := Run (P := Sim.shipped) [] ["lgtmgen"; "-d"; "in"; "-o"; "out"]
               Sim.disk in
  map t_filePath (o_tasks o) = ["in/a.png"; "in/b.png"; "in/c.txt"].
Proof.
  destruct (C6_one_task_per_file
              (P := Sim.shipped) ["lgtmgen"; "-d"; "in"; "-o"; "out"] Sim.disk
              _ _ eq_refl) as (_ & f & files & _ & _ & _ & _ & H).
  apply (H _ 0%Z).
  - apply Run_RunsTo.
  - by_run.
Defined.

(** ** Separators at the end of a path *)

Lemma HasSuffix_sep_cons c s :
  strings_HasSuffix (String c s) "/"
  = match s with
    | EmptyString => isPathSeparator c
    | _ => strings_HasSuffix s "/"
    end.
Proof.
  unfold strings_HasSuffix, isPathSeparator. simpl.
  destruct s as [|d s]; simpl.
  - now destruct (Ascii.eqb c "/").
  - now rewrite Nat.sub_0_r.
Qed.

Lemma HasSuffix_sep_app s : strings_HasSuffix (s ++ "/") "/" = true.
Proof.
  induction s as [|c s IH].
  - reflexivity.
  - change (String c s ++ "/") with (String c (s ++ "/")).
    rewrite HasSuffix_sep_cons.
    destruct (s ++ "/") eqn:E; auto. destruct s; discriminate.
Qed.

Lemma list_ascii_of_string_app s1 s2 :
  list_ascii_of_string (s1 ++ s2)
  = (list_ascii_of_string s1 ++ list_ascii_of_string s2)%list.
Proof. induction s1 as [|c s1 IH]; simpl; [|f_equal]; auto. Qed.

Lemma HasSuffix_sep_rev s :
  strings_HasSuffix s "/"
  = match rev (list_ascii_of_string s) with
    | c :: _ => isPathSeparator c
    | [] => false
    end.
Proof.
  induction s as [|c s IH]; [reflexivity|].
  rewrite HasSuffix_sep_cons. simpl.
  destruct s as [|d s]; [reflexivity|].
  rewrite IH. simpl.
  destruct (rev (list_ascii_of_string s) ++ [d])%list eqn:E; simpl; auto.
  destruct (rev (list_ascii_of_string s)); discriminate.
Qed.

Lemma trailing_separators_app_sep s :
  trailing_separators (s ++ "/") = S (trailing_separators s).
Proof.
  unfold trailing_separators.
  rewrite list_ascii_of_string_app, rev_app_distr. reflexivity.
Qed.

Lemma trailing_separators_pos s :
  strings_HasSuffix s "/" = true <-> (1 <= trailing_separators s)%nat.
Proof.
  rewrite HasSuffix_sep_rev. unfold trailing_separators.
  destruct (rev (list_ascii_of_string s)) as [|c l]; simpl.
  - split; [discriminate|lia].
  - destruct (isPathSeparator c); simpl; split; try discriminate; auto; lia.
Qed.

(** ** C7: the destination of a task *)

Lemma addDirectorySuffix_spec d :
  strings_HasSuffix (addDirectorySuffix d) "/" = true /\
  trailing_separators (addDirectorySuffix d)
  = Nat.max 1 (trailing_separators d).
Proof.
  unfold addDirectorySuffix.
  destruct (strings_HasSuffix d "/") eqn:E.
  - split; auto. apply trailing_separators_pos in E. lia.
  - split; [apply HasSuffix_sep_app|].
    rewrite trailing_separators_app_sep.
    destruct (trailing_separators d) eqn:Et; auto.
    assert (H : strings_HasSuffix d "/" = true)
      by (apply trailing_separators_pos; lia).
    congruence.
Qed.

Lemma task_log_paths {P : Platform} cfg filePath pc calls c p :
  task_log cfg filePath pc calls ->
  In c calls -> call_path c = Some p ->
  p = outputFilePath (cfg_output cfg) filePath.
Proof.
  intros H Hin Hp.
  assert (B : forall l, body_log cfg filePath l -> In c l ->
                        p = outputFilePath (cfg_output cfg) filePath).
  { intros l Hl Hc. destruct Hl; simpl in Hc;
      repeat (destruct Hc as [<-|Hc]; [simpl in Hp; congruence|]);
      contradiction. }
  destruct H; simpl in Hin; eauto;
    try (repeat (destruct Hin as [<-|Hin]; [simpl in Hp; congruence|]);
         contradiction).
  apply in_app_or in Hin. destruct Hin as [Hin|[<-|[]]]; eauto.
  discriminate.
Qed.

(** C7, as amended.  Every path a goroutine hands to [existFile] or to
    [imaging.Save] is the output directory after [addDirectorySuffix],
    followed by [filepath.Base] of its source path, a function of the two and
    of nothing else.  [addDirectorySuffix] makes the directory end in a
    separator: it appends one when there is none and keeps whatever run of
    separators is already there. *)
Theorem C7_destination_path {P : Platform}
        (args : list string) (fs : FS) (cfg : Config) (printed : list string)
        (s : State) (t : Task) (c : Call) (p : string) :
  Run_init args fs = (InitDispatch cfg, printed) ->
  steps cfg (initial cfg fs printed) s ->
  In t (st_tasks s) ->
  In c (t_calls t) ->
  call_path c = Some p ->
  exists f,
    flag_Parse (tl args) = Parsed f /\
    p = addDirectorySuffix (fl_output f) ++ filepath_Base (t_filePath t) /\
    addDirectorySuffix (fl_output f)
    = (if strings_HasSuffix (fl_output f) "/" then fl_output f
       else fl_output f ++ "/") /\
    strings_HasSuffix (addDirectorySuffix (fl_output f)) "/" = true /\
    trailing_separators (addDirectorySuffix (fl_output f))
    = Nat.max 1 (trailing_separators (fl_output f)).
Proof.
  intros E Hs Ht Hc Hp.
  destruct (Run_init_dispatch _ _ _ _ E)
    as (a0 & rest & f & data & files & -> & Hf & _ & _ & _ & _ & _ & Hcfg & _).
  exists f. simpl. split; [exact Hf|].
  pose proof (Inv_reachable _ _ _ _ Hs) as I.
  pose proof (inv_logs _ _ _ I) as Hl. rewrite Forall_forall in Hl.
  pose proof (task_log_paths _ _ _ _ _ _ (Hl t Ht) Hc Hp) as Hd.
  rewrite Hcfg in Hd. simpl in Hd.
  destruct (addDirectorySuffix_spec (fl_output f)) as [H1 H2].
  repeat split; auto.
Qed.

Lemma C7_destination_path_witness :
  "out/a.png" = addDirectorySuffix "out" ++ filepath_Base "in/a.png".
Proof.
  destruct (C7_destination_path
              (P := Sim.shipped) ["lgtmgen"; "-d"; "in"; "-o"; "out"] Sim.disk
              Sim.config_disk []
              (run_sched Sim.config_disk [0; 1; 1]%nat
                         (initial Sim.config_disk Sim.disk []))
              {| t_filePath := "in/a.png";
                 t_pc := AtSave (P := Sim.shipped)
                                [x4c; x47; x54; x4d; x05; x06; x07];
                 t_calls := [CallOverlay
                               (P := Sim.shipped)
                               (Ok [x4c; x47; x54; x4d; x05; x06; x07]);
                             CallExist "out/a.png" false] |}
              (CallExist "out/a.png" false) "out/a.png")
    as (f & Hf & Hp & _).
  - reflexivity.
  - apply run_sched_steps.
  - vm_compute. left. reflexivity.
  - right. left. reflexivity.
  - reflexivity.
  - inversion Hf; subst. exact Hp.
Defined.

(** C7 as stated fails: an output directory given with two separators at
    its end keeps both, and the destinations are built on it. *)
Lemma C7_counterexample :
  addDirectorySuffix "out//" = "out//" /\
  trailing_separators (addDirectorySuffix "out//") = 2%nat /\
  let o := Run (P := Sim.shipped) [] ["lgtmgen"; "-d"; "in"; "-o"; "out//"]
               Sim.disk in
  exists t,
    In t (o_tasks o) /\ t_filePath t = "in/a.png" /\
    In (CallSave (P := Sim.shipped) "out//a.png"
                 [x4c; x47; x54; x4d; x05; x06; x07] None)
       (t_calls t).
Proof.
  split; [reflexivity|]. split; [reflexivity|].
  exists {| t_filePath := "in/a.png";
            t_pc := Finished (P := Sim.shipped);
            t_calls := [CallOverlay
                          (P := Sim.shipped)
                          (Ok [x4c; x47; x54; x4d; x05; x06; x07]);
                        CallExist "out//a.png" false;
                        CallSave (P := Sim.shipped) "out//a.png"
                                 [x4c; x47; x54; x4d; x05; x06; x07] None;
                        WriteOut ("[success] out//a.png" ++ newline);
                        CallDone] |}.
  split; [apply nth_error_In with (n := 0%nat); by_run|].
  split; [reflexivity|]. right. right. left. reflexivity.
Qed.

(** ** C10: what [existFile] takes for a missing file *)

Lemma existFile_iff {P : Platform} fs filename :
  existFile fs filename = true <-> exists fi, os_Stat fs filename = Ok fi.
Proof.
  unfold existFile. destruct (os_Stat fs filename) as [fi|e]; split;
    try discriminate; eauto.
  intros [fi H]. discriminate.
Qed.

Lemma guard_step {P : Platform} cfg fs t maskedImage :
  t_pc t = AtGuard maskedImage ->
  let dest := outputFilePath (cfg_output cfg) (t_filePath t) in
  task_step cfg fs t
  = Some (advance t
            (if existFile fs dest && negb (cfg_force cfg)
             then AtLogExists else AtSave maskedImage)
            (CallExist dest (existFile fs dest)),
          Reads).
Proof.
  intros E dest. unfold task_step. rewrite E. fold dest.
  now destruct (existFile fs dest && negb (cfg_force cfg)).
Qed.

Lemma save_step {P : Platform} cfg fs t maskedImage :
  t_pc t = AtSave maskedImage ->
  let dest := outputFilePath (cfg_output cfg) (t_filePath t) in
  task_step cfg fs t
  = Some (advance t
            (match snd (imaging_Save fs maskedImage dest) with
             | Some e => AtLogSaveErr e
             | None => AtLogSuccess
             end)
            (CallSave dest maskedImage (snd (imaging_Save fs maskedImage dest))),
          NewFS (fst (imaging_Save fs maskedImage dest))).
Proof.
  intros E dest. unfold task_step. rewrite E. fold dest.
  destruct (imaging_Save fs maskedImage dest) as [fs' [e|]]; reflexivity.
Qed.

(** C10.  [existFile] answers true exactly when [os.Stat] returns no
    error.  So when [os.Stat] fails on the destination, for whatever reason,
    the goroutine at the guard takes the file for absent and goes on, with
    or without [force], to call [imaging.Save] on that destination. *)
Theorem C10_stat_error_means_absent {P : Platform}
        (cfg : Config) (fs : FS) (t : Task) (maskedImage : NRGBA) (e : error) :
  t_pc t = AtGuard maskedImage ->
  os_Stat fs (outputFilePath (cfg_output cfg) (t_filePath t)) = Err e ->
  let dest := outputFilePath (cfg_output cfg) (t_filePath t) in
  let t1 := advance t (AtSave maskedImage) (CallExist dest false) in
  (forall fs0 filename,
      existFile fs0 filename = true <-> exists fi, os_Stat fs0 filename = Ok fi) /\
  existFile fs dest = false /\
  task_step cfg fs t = Some (t1, Reads) /\
  forall fs1,
    task_step cfg fs1 t1
    = Some (advance t1
              (match snd (imaging_Save fs1 maskedImage dest) with
               | Some e1 => AtLogSaveErr e1
               | None => AtLogSuccess
               end)
              (CallSave dest maskedImage
                        (snd (imaging_Save fs1 maskedImage dest))),
            NewFS (fst (imaging_Save fs1 maskedImage dest))).
Proof.
  intros Epc Est dest t1.
  assert (Ex : existFile fs dest = false).
  { unfold existFile, dest. now rewrite Est. }
  split; [intros; apply existFile_iff|]. split; [exact Ex|]. split.
  - rewrite (guard_step cfg fs t maskedImage Epc). fold dest. now rewrite Ex.
  - intros fs1. apply (save_step cfg fs1 t1 maskedImage). reflexivity.
Qed.

Lemma C10_stat_error_means_absent_witness :
  let t := {| t_filePath := "in/b.png";
              t_pc := AtGuard (P := Sim.shipped) [x4c; x47];
              t_calls := [CallOverlay (P := Sim.shipped) (Ok [x4c; x47])] |} in
  os_Stat (Platform := Sim.shipped) Sim.disk_no_access "out/b.png"
  = Err "stat out/b.png: permission denied" /\
  task_step Sim.config_b Sim.disk_no_access t
  = Some (advance t (AtSave (P := Sim.shipped) [x4c; x47])
                  (CallExist "out/b.png" false), Reads).
Proof.
  intros t. split; [reflexivity|].
  apply (C10_stat_error_means_absent
           Sim.config_b Sim.disk_no_access t [x4c; x47]
           "stat out/b.png: permission denied");
    reflexivity.
Defined.

(** ** C4: the lines a goroutine writes *)

(** What every goroutine that has finished has written, on any machine:
    one line, and in the case of a failed [imaging.Save] a line that names
    no error. *)
Lemma finished_task_lines {P : Platform} cfg fs printed s t :
  steps cfg (initial cfg fs printed) s ->
  In t (st_tasks s) -> t_pc t = Finished ->
  let dest := outputFilePath (cfg_output cfg) (t_filePath t) in
  (exists mask_err,
      In (CallOverlay (Err mask_err)) (t_calls t) /\
      err_lines t = ["[" ++ mask_err ++ "] " ++ t_filePath t ++ newline] /\
      out_lines t = []) \/
  (In (CallExist dest true) (t_calls t) /\ cfg_force cfg = false /\
   err_lines t = ["[already exists] " ++ dest ++ newline] /\
   out_lines t = []) \/
  (exists img save_err,
      In (CallSave dest img (Some save_err)) (t_calls t) /\
      err_lines t = ["[%!s(<nil>)] " ++ t_filePath t ++ newline] /\
      out_lines t = []) \/
  (exists img,
      In (CallSave dest img None) (t_calls t) /\
      err_lines t = [] /\
      out_lines t = ["[success] " ++ dest ++ newline]).
Proof.
  intros Hs Ht Epc dest.
  pose proof (inv_logs _ _ _ (Inv_reachable _ _ _ _ Hs)) as Hl.
  rewrite Forall_forall in Hl.
  destruct (finished_log _ _ (Hl t Ht) Epc) as (calls & Hb & Hc).
  unfold err_lines, out_lines. rewrite Hc.
  destruct Hb; [left|right; left|right; right; left|right; right; right];
    repeat eexists; simpl; auto.
Qed.

(** The streams hold the lines of the goroutines, in some order. *)
Lemma streams_of_run {P : Platform} cfg fs printed s :
  steps cfg (initial cfg fs printed) s ->
  Permutation (st_err s) (printed ++ flat_map err_lines (st_tasks s)) /\
  Permutation (st_out s) (flat_map out_lines (st_tasks s)).
Proof.
  intros Hs. pose proof (Inv_reachable _ _ _ _ Hs) as I.
  split; [apply (inv_err _ _ _ I) | apply (inv_out _ _ _ I)].
Qed.

(** C4, at a failing input.  The input directory holds one image whose
    name has no extension; [imaging.Save] refuses the destination, and the
    line on the error stream is [[%!s(<nil>)] in/photo]: it prints
    [mask_err], which is nil, where the error of the save was meant. *)
Theorem C4_save_failure_names_no_error :
  let o := Run (P := Sim.shipped) [] ["lgtmgen"; "-d"; "in"; "-o"; "out"]
               Sim.disk_photo in
  o_status o = Exited 0%Z /\
  map t_calls (o_tasks o)
  = [[CallOverlay (P := Sim.shipped) (Ok [x4c; x47; x54]);
      CallExist "out/photo" false;
      CallSave (P := Sim.shipped) "out/photo" [x4c; x47; x54]
               (Some "imaging: unsupported image format");
      WriteErr ("[%!s(<nil>)] in/photo" ++ newline);
      CallDone]] /\
  o_err o = ["[%!s(<nil>)] in/photo" ++ newline] /\
  o_err o <> ["[imaging: unsupported image format] in/photo" ++ newline] /\
  o_out o = [].
Proof.
  repeat split; by_run.
Qed.

(** ** C5: the overwrite guard *)

Lemma skip_line_differs dest filePath :
  "[already exists] " ++ dest ++ newline
  <> "[%!s(<nil>)] " ++ filePath ++ newline.
Proof. simpl. intros H. inversion H. Qed.

(** C5, as amended.  A goroutine whose compositing succeeded asks
    [existFile] about its destination exactly once.  It skips the file, that
    is, it writes the [[already exists]] line and never calls
    [imaging.Save], if and only if [existFile] answered true, which is when
    [os.Stat] returned no error, and [force] is not set; in every other case
    it calls [imaging.Save] on the destination with the composited image,
    whether or not a file is there.  A goroutine whose compositing failed
    returns before the guard: it calls neither [existFile] nor
    [imaging.Save], and its only line is the one that reports the error. *)
Theorem C5_overwrite_guard {P : Platform}
        (cfg : Config) (fs : FS) (printed : list string)
        (s : State) (t : Task) :
  steps cfg (initial cfg fs printed) s ->
  In t (st_tasks s) ->
  t_pc t = Finished ->
  let dest := outputFilePath (cfg_output cfg) (t_filePath t) in
  let skipped :=
    In (WriteErr ("[already exists] " ++ dest ++ newline)) (t_calls t) /\
    forall p i e, ~ In (CallSave p i e) (t_calls t) in
  (forall img,
      In (CallOverlay (Ok img)) (t_calls t) ->
      exists found,
        In (CallExist dest found) (t_calls t) /\
        (skipped <-> found = true /\ cfg_force cfg = false) /\
        (~ skipped -> exists e, In (CallSave dest img e) (t_calls t))) /\
  (forall mask_err,
      In (CallOverlay (Err mask_err)) (t_calls t) ->
      t_calls t
      = [CallOverlay (Err mask_err);
         WriteErr ("[" ++ mask_err ++ "] " ++ t_filePath t ++ newline);
         CallDone]) /\
  (forall fs0 t0 img0,
      t_pc t0 = AtGuard img0 ->
      let dest0 := outputFilePath (cfg_output cfg) (t_filePath t0) in
      task_step cfg fs0 t0
      = Some (advance t0
                (if existFile fs0 dest0 && negb (cfg_force cfg)
                 then AtLogExists else AtSave img0)
                (CallExist dest0 (existFile fs0 dest0)),
              Reads)) /\
  (forall fs0 filename,
      existFile fs0 filename = true <-> exists fi, os_Stat fs0 filename = Ok fi).
Proof.
  intros Hs Ht Epc dest skipped.
  pose proof (inv_logs _ _ _ (Inv_reachable _ _ _ _ Hs)) as Hl.
  rewrite Forall_forall in Hl.
  destruct (finished_log _ _ (Hl t Ht) Epc) as (calls & Hb & Hc).
  split; [|split;
           [|split; [intros; now apply guard_step
                    |intros; apply existFile_iff]]].
  - intros img Hov. unfold skipped. rewrite Hc in *. fold dest in Hb.
    destruct Hb as [mask_err|img1 Hf|img1 found save_err Hg|img1 found Hg].
    + simpl in Hov. destruct Hov as [H|[H|[H|[]]]]; discriminate.
    + exists true. simpl. split; [auto|]. split.
      * split; [auto|]. intros _. split; [auto|].
        intros p i e [H|[H|[H|[H|[]]]]]; discriminate.
      * intros Hn. exfalso. apply Hn. split; [auto|].
        intros p i e [H|[H|[H|[H|[]]]]]; discriminate.
    + assert (img1 = img).
      { simpl in Hov. destruct Hov as [H|[H|[H|[H|[H|[]]]]]]; congruence. }
      subst img1. exists found. simpl. split; [auto|]. split.
      * split.
        -- intros [_ Hno]. exfalso. apply (Hno dest img (Some save_err)). auto.
        -- intros [-> Hfalse]. rewrite Hfalse in Hg. discriminate.
      * intros _. exists (Some save_err). auto.
    + assert (img1 = img).
      { simpl in Hov. destruct Hov as [H|[H|[H|[H|[H|[]]]]]]; congruence. }
      subst img1. exists found. simpl. split; [auto|]. split.
      * split.
        -- intros [_ Hno]. exfalso. apply (Hno dest img None). auto.
        -- intros [-> Hfalse]. rewrite Hfalse in Hg. discriminate.
      * intros _. exists None. auto.
  - intros mask_err Hov. rewrite Hc in *.
    destruct Hb as [mask_err1|img1 Hf|img1 found save_err Hg|img1 found Hg];
      simpl in Hov.
    + destruct Hov as [H|[H|[H|[]]]]; try discriminate.
      inversion H; subst. reflexivity.
    + destruct Hov as [H|[H|[H|[H|[]]]]]; discriminate.
    + destruct Hov as [H|[H|[H|[H|[H|[]]]]]]; discriminate.
    + destruct Hov as [H|[H|[H|[H|[H|[]]]]]]; discriminate.
Qed.

Lemma C5_overwrite_guard_witness :
  exists found,
    In (CallExist (P := Sim.shipped) "out/b.png" found)
       [CallOverlay (P := Sim.shipped) (Ok [x4c; x47]);
        CallExist "out/b.png" true;
        WriteErr ("[already exists] out/b.png" ++ newline); CallDone] /\
    found = true.
Proof.
  destruct (C5_overwrite_guard
              Sim.config_disk Sim.disk []
              (run_to_end Sim.config_disk [] (initial Sim.config_disk Sim.disk []))
              {| t_filePath := "in/b.png"; t_pc := Finished (P := Sim.shipped);
                 t_calls := [CallOverlay (P := Sim.shipped) (Ok [x4c; x47]);
                             CallExist "out/b.png" true;
                             WriteErr ("[already exists] out/b.png" ++ newline);
                             CallDone] |})
    as (H & _).
  - apply run_to_end_steps.
  - apply nth_error_In with (n := 1%nat). by_run.
  - reflexivity.
  - destruct (H [x4c; x47]) as (found & Hin & Hiff & _).
    + left. reflexivity.
    + exists found. split; [exact Hin|].
      apply Hiff. split; [right; right; left; reflexivity|].
      intros p i e [H0|[H0|[H0|[H0|[]]]]]; discriminate.
Defined.

(** C5 as stated fails.  [in/c.txt] is no image and [out/c.txt] is there
    before and after the run, without [force]: the goroutine writes no
    [[already exists]] line, it reports the decoding error.  And
    [out/b.png], a file that [os.Stat] may not reach, is not skipped without
    [force]: [imaging.Save] is called on it. *)
Lemma C5_counterexample :
  (let o := Run (P := Sim.shipped) [] ["lgtmgen"; "-d"; "in"; "-o"; "out"]
                Sim.disk_with_c in
   existFile (P := Sim.shipped) Sim.disk_with_c "out/c.txt" = true /\
   existFile (P := Sim.shipped) (o_fs o) "out/c.txt" = true /\
   exists t,
     In t (o_tasks o) /\ t_filePath t = "in/c.txt" /\ t_pc t = Finished /\
     ~ In (WriteErr ("[already exists] out/c.txt" ++ newline)) (t_calls t) /\
     ~ In ("[already exists] out/c.txt" ++ newline) (o_err o)) /\
  (let o := Run (P := Sim.shipped) [] ["lgtmgen"; "-d"; "in"; "-o"; "out"]
                Sim.disk_no_access in
   Sim.lookup Sim.disk_no_access "out/b.png" = Some (Sim.NoAccess [x89; x09]) /\
   exists t e,
     In t (o_tasks o) /\ t_filePath t = "in/b.png" /\
     In (CallSave (P := Sim.shipped) "out/b.png" [x4c; x47] e) (t_calls t) /\
     ~ In ("[already exists] out/b.png" ++ newline) (o_err o)).
Proof.
  split.
  - intros o. split; [by_run|]. split; [by_run|].
    exists {| t_filePath := "in/c.txt"; t_pc := Finished (P := Sim.shipped);
              t_calls := [CallOverlay (P := Sim.shipped)
                                      (Err "image: unknown format");
                          WriteErr ("[image: unknown format] in/c.txt"
                                    ++ newline);
                          CallDone] |}.
    split; [apply nth_error_In with (n := 2%nat); by_run|].
    split; [reflexivity|]. split; [reflexivity|]. split.
    + intros [H|[H|[H|[]]]]; discriminate.
    + replace (o_err o)
        with ["[already exists] out/b.png" ++ newline;
              "[image: unknown format] in/c.txt" ++ newline] by by_run.
      intros [H|[H|[]]]; discriminate.
  - intros o. split; [by_run|].
    exists {| t_filePath := "in/b.png"; t_pc := Finished (P := Sim.shipped);
              t_calls := [CallOverlay (P := Sim.shipped) (Ok [x4c; x47]);
                          CallExist "out/b.png" false;
                          CallSave (P := Sim.shipped) "out/b.png" [x4c; x47]
                                   (Some "open out/b.png: permission denied");
                          WriteErr ("[%!s(<nil>)] in/b.png" ++ newline);
                          CallDone] |}.
    exists (Some "open out/b.png: permission denied").
    split; [apply nth_error_In with (n := 0%nat); by_run|].
    split; [reflexivity|]. split; [right; right; left; reflexivity|].
    replace (o_err o) with ["[%!s(<nil>)] in/b.png" ++ newline] by by_run.
    intros [H|[]]; discriminate.
Qed.

(** * Further properties of [cli.go] *)

(** ** [addDirectorySuffix] *)

Lemma length_append s1 s2 :
  String.length (s1 ++ s2) = (String.length s1 + String.length s2)%nat.
Proof. induction s1 as [|c s1 IH]; simpl; auto. Qed.

(** X1.  [addDirectorySuffix] is idempotent, it leaves exactly the paths
    that end in a separator unchanged, and it never adds more than one
    character. *)
Theorem X1_addDirectorySuffix_idempotent (directoryPath : string) :
  addDirectorySuffix (addDirectorySuffix directoryPath)
  = addDirectorySuffix directoryPath /\
  (addDirectorySuffix directoryPath = directoryPath <->
   strings_HasSuffix directoryPath "/" = true) /\
  String.length (addDirectorySuffix directoryPath)
  = (String.length directoryPath
     + (if strings_HasSuffix directoryPath "/" then 0 else 1))%nat.
Proof.
  destruct (addDirectorySuffix_spec directoryPath) as [Hs _].
  split; [|split].
  - unfold addDirectorySuffix at 1. now rewrite Hs.
  - unfold addDirectorySuffix.
    destruct (strings_HasSuffix directoryPath "/") eqn:E; split; auto.
    + intros H. apply (f_equal String.length) in H.
      rewrite length_append in H. simpl in H. lia.
    + discriminate.
  - unfold addDirectorySuffix.
    destruct (strings_HasSuffix directoryPath "/"); [lia|].
    rewrite length_append. reflexivity.
Qed.

(** ** [Run] before its loop: the version and the required flags *)

(** X3.  With [-version], [Run] writes the name and the version to the
    error stream (not to standard output) and returns [ExitCodeOK]; it does
    so before it looks at the directories, the mask or the file system, so
    no goroutine is started and nothing else is written, whatever the other
    flags are. *)
Theorem X3_version_short_circuits {P : Platform}
        (args : list string) (fs : FS) (a0 : string) (rest : list string)
        (f : Flags) (o : Outcome) :
  args = a0 :: rest ->
  flag_Parse rest = Parsed f ->
  fl_version f = true ->
  RunsTo args fs o ->
  o = {| o_status := Exited ExitCodeOK; o_tasks := []; o_fs := fs;
         o_err := [Name ++ " version " ++ Version ++ newline];
         o_out := [] |}.
Proof.
  intros -> Hf Hv HR.
  apply (RunsTo_return_inv (a0 :: rest) fs); auto.
  unfold Run_init. now rewrite Hf, Hv.
Qed.

Lemma X3_version_short_circuits_witness :
  Run (P := Sim.stripped) [] ["lgtmgen"; "-version"; "-d"; "nowhere"] Sim.disk
  = @Build_Outcome Sim.stripped (Exited ExitCodeOK) [] Sim.disk
                   ["lgtmgen" ++ " version " ++ "0.1.0" ++ newline] [].
Proof.
  apply (X3_version_short_circuits
           (P := Sim.stripped)
           ["lgtmgen"; "-version"; "-d"; "nowhere"] Sim.disk "lgtmgen"
           ["-version"; "-d"; "nowhere"]
           {| fl_output := ""; fl_directory := "nowhere"; fl_force := false;
              fl_version := true |});
    try reflexivity.
  apply Run_RunsTo.
Defined.

(** X4.  What [Run] writes when it gives up on its flags.  After a parse
    failure the error stream holds what the flag set printed and nothing
    more.  When the flags parse and no version is asked for, a missing input
    directory is reported first, alone, even if the output directory is
    missing too; a missing output directory is reported only when the input
    directory is given.  In each case [Run] returns [ExitCodeError]. *)
Theorem X4_flag_diagnostics {P : Platform}
        (args : list string) (fs : FS) (a0 : string) (rest : list string)
        (o : Outcome) :
  args = a0 :: rest ->
  RunsTo args fs o ->
  match flag_Parse rest with
  | ParseFailed _ printed =>
      o_status o = Exited ExitCodeError /\ o_err o = printed
  | Parsed f =>
      fl_version f = false ->
      (fl_directory f = "" ->
       o_status o = Exited ExitCodeError /\
       o_err o = ["input directory path is required." ++ newline]) /\
      (fl_directory f <> "" -> fl_output f = "" ->
       o_status o = Exited ExitCodeError /\
       o_err o = ["output directory path is required." ++ newline])
  end.
Proof.
  intros -> HR.
  destruct (flag_Parse rest) as [f|err printed] eqn:Ef.
  - intros Hv. split.
    + intros Hd.
      rewrite (RunsTo_return_inv (a0 :: rest) fs ExitCodeError
                 ["input directory path is required." ++ newline] o); auto.
      unfold Run_init. now rewrite Ef, Hv, Hd.
    + intros Hd Ho. apply String.eqb_neq in Hd.
      rewrite (RunsTo_return_inv (a0 :: rest) fs ExitCodeError
                 ["output directory path is required." ++ newline] o); auto.
      unfold Run_init. now rewrite Ef, Hv, Hd, Ho.
  - rewrite (RunsTo_return_inv (a0 :: rest) fs ExitCodeError printed o); auto.
    unfold Run_init. now rewrite Ef.
Qed.

Lemma X4_flag_diagnostics_witness :
  o_err (Run (P := Sim.shipped) [] ["lgtmgen"; "-f"] Sim.disk)
  = ["input directory path is required." ++ newline].
Proof.
  pose proof (X4_flag_diagnostics
                (P := Sim.shipped) ["lgtmgen"; "-f"] Sim.disk "lgtmgen" ["-f"]
                (Run (P := Sim.shipped) [] ["lgtmgen"; "-f"] Sim.disk)
                eq_refl (Run_RunsTo (P := Sim.shipped) [] _ _)) as H.
  apply H; reflexivity.
Defined.

(** ** The lines of a run *)

Lemma body_log_one_line {P : Platform} cfg filePath calls :
  body_log cfg filePath calls ->
  (List.length (flat_map err_line_of (calls ++ [CallDone]))
   + List.length (flat_map out_line_of (calls ++ [CallDone])) = 1)%nat.
Proof. intros H. destruct H; reflexivity. Qed.

Lemma flat_map_lengths (A B C : Type) (f : A -> list B) (g : A -> list C)
      (l : list A) :
  Forall (fun x => (List.length (f x) + List.length (g x) = 1)%nat) l ->
  (List.length (flat_map f l) + List.length (flat_map g l) = List.length l)%nat.
Proof.
  induction 1 as [|x l Hx Hl IH]; simpl; auto.
  rewrite !length_app. lia.
Qed.

(** X8.  With a decoded mask, when [Run] has returned, every goroutine
    has written exactly one line, to exactly one of the two streams; the
    error stream holds what was printed before the loop and the lines of the
    goroutines in some order, standard output holds their success lines in
    some order, and together they have one line for each path that was
    enumerated. *)
Theorem X8_one_line_per_task {P : Platform}
        (cfg : Config) (fs : FS) (printed : list string) (s : State) (code : Z) :
  cfg_maskImage cfg <> None ->
  steps cfg (initial cfg fs printed) s ->
  st_main s = Returned code ->
  Forall (fun t => (List.length (err_lines t) + List.length (out_lines t)
                    = 1)%nat) (st_tasks s) /\
  Permutation (st_err s) (printed ++ flat_map err_lines (st_tasks s)) /\
  Permutation (st_out s) (flat_map out_lines (st_tasks s)) /\
  (List.length (st_err s) + List.length (st_out s)
   = List.length printed + List.length (cfg_filePaths cfg))%nat.
Proof.
  intros Hmask Hs Em. pose proof (Inv_reachable _ _ _ _ Hs) as I.
  destruct (inv_returned _ _ _ I code Em) as [_ Hz].
  apply outstanding_zero in Hz.
  apply (all_done_with_mask _ _ _ I Hmask) in Hz.
  pose proof (inv_paths _ _ _ I) as Hpaths. rewrite Em in Hpaths.
  simpl in Hpaths. rewrite app_nil_r in Hpaths.
  pose proof (inv_logs _ _ _ I) as Hl.
  destruct (streams_of_run cfg fs printed s Hs) as [Herr Hout].
  assert (Hone : Forall (fun t => (List.length (err_lines t)
                                   + List.length (out_lines t) = 1)%nat)
                        (st_tasks s)).
  { rewrite Forall_forall in *. intros t Ht.
    destruct (finished_log cfg t (Hl t Ht) (Hz t Ht)) as (calls & Hb & Hc).
    unfold err_lines, out_lines. rewrite Hc.
    eapply body_log_one_line; eauto. }
  repeat split; auto.
  apply Permutation_length in Herr, Hout.
  rewrite Herr, Hout, length_app, <- Hpaths, length_map.
  pose proof (flat_map_lengths _ _ _ err_lines out_lines _ Hone). lia.
Qed.

Lemma X8_one_line_per_task_witness :
  let s := run_to_end Sim.config_disk [3; 0; 2]%nat
                      (initial Sim.config_disk Sim.disk []) in
  (List.length (st_err s) + List.length (st_out s) = 0 + 3)%nat.
Proof.
  intros s.
  destruct (X8_one_line_per_task Sim.config_disk Sim.disk [] s ExitCodeOK)
    as (_ & _ & _ & H).
  - discriminate.
  - apply run_to_end_steps.
  - by_run.
  - exact H.
Defined.

(** ** No deadlock *)

(** X23.  [Run] cannot hang.  In every state of a run that has not ended,
    [Run] itself or one of its goroutines can take a step; every step
    brings the end nearer; and from every state, whatever the schedule, the
    run ends: [Run] returns or the process dies in a panic. *)
Theorem X23_no_deadlock {P : Platform}
        (cfg : Config) (fs : FS) (printed : list string) (s : State) :
  steps cfg (initial cfg fs printed) s ->
  (status s = InProgress -> exists s', step cfg s s') /\
  (forall s', step cfg s s' -> (measure s' < measure s)%nat) /\
  (forall sched,
      steps cfg s (run_to_end cfg sched s) /\
      status (run_to_end cfg sched s) <> InProgress).
Proof.
  intros Hs. pose proof (Inv_reachable _ _ _ _ Hs) as I.
  split; [|split].
  - intros Hst. destruct (progress _ _ _ I Hst) as (tid & _ & Hen).
    destruct (step_thread cfg tid s) as [s'|] eqn:E; [|congruence].
    exists s'. now exists tid.
  - intros s'. apply measure_step.
  - intros sched. split; [apply run_to_end_steps|].
    eapply run_to_end_terminal; eauto.
Qed.

Lemma X23_no_deadlock_witness :
  let s := run_sched Sim.config_disk [0; 0; 0; 0; 1; 2]%nat
                     (initial Sim.config_disk Sim.disk []) in
  status s = InProgress /\ exists s', step Sim.config_disk s s'.
Proof.
  intros s.
  destruct (X23_no_deadlock Sim.config_disk Sim.disk [] s) as (H & _).
  - apply run_sched_steps.
  - assert (E : status s = InProgress) by by_run. split; [exact E|].
    apply H. exact E.
Defined.

(** ** Destinations do not collide *)

Lemma takeWhile_app_stop (A : Type) (p : A -> bool) (l1 l2 : list A) :
  forallb p l1 = true ->
  match l2 with [] => True | x :: _ => p x = false end ->
  takeWhile p (l1 ++ l2) = l1.
Proof.
  intros H1 H2. induction l1 as [|a l1 IH]; simpl in *.
  - destruct l2; simpl in *; auto. now rewrite H2.
  - apply andb_prop in H1. destruct H1 as [Ha Hl]. rewrite Ha.
    f_equal. auto.
Qed.

Lemma forallb_rev (A : Type) (p : A -> bool) (l : list A) :
  forallb p (rev l) = forallb p l.
Proof.
  induction l as [|a l IH]; simpl; auto.
  rewrite forallb_app, IH. simpl. rewrite andb_true_r. apply andb_comm.
Qed.

Lemma string_of_list_ascii_nonempty l :
  l <> [] -> string_of_list_ascii l <> "".
Proof. destruct l; simpl; congruence. Qed.

(** [filepath.Base] gives back the name of an entry from the path that
    [readImagePaths] builds for it. *)
Lemma filepath_Base_join dir name :
  strings_HasSuffix dir "/" = true ->
  valid_name name = true ->
  filepath_Base (dir ++ name) = name.
Proof.
  intros Hd Hn. unfold valid_name in Hn.
  apply andb_prop in Hn. destruct Hn as [Hne Hsep].
  apply negb_true_iff, String.eqb_neq in Hne.
  unfold filepath_Base.
  destruct (String.eqb (dir ++ name) "") eqn:E.
  - apply String.eqb_eq in E. apply (f_equal String.length) in E.
    rewrite length_append in E. destruct name; [congruence|simpl in E; lia].
  - rewrite list_ascii_of_string_app, rev_app_distr.
    rewrite HasSuffix_sep_rev in Hd.
    assert (Hrev : forallb (fun c => negb (isPathSeparator c))
                           (rev (list_ascii_of_string name)) = true)
      by now rewrite forallb_rev.
    assert (Hdrop : dropWhile isPathSeparator
                      (rev (list_ascii_of_string name)
                       ++ rev (list_ascii_of_string dir))
                    = (rev (list_ascii_of_string name)
                       ++ rev (list_ascii_of_string dir))%list).
    { destruct (rev (list_ascii_of_string name)) as [|c r] eqn:Er.
      - apply (f_equal (@rev ascii)) in Er. rewrite rev_involutive in Er.
        destruct name; [congruence|discriminate].
      - simpl in *. apply andb_prop in Hrev. destruct Hrev as [Hc _].
        apply negb_true_iff in Hc. now rewrite Hc. }
    rewrite Hdrop, takeWhile_app_stop, rev_involutive; auto.
    + destruct (list_ascii_of_string name) eqn:El.
      * destruct name; [congruence|discriminate].
      * rewrite <- El. apply string_of_list_ascii_of_string.
    + destruct (rev (list_ascii_of_string dir)); auto.
      now rewrite Hd.
Qed.

Lemma append_inj_r s a b : s ++ a = s ++ b -> a = b.
Proof. induction s as [|c s IH]; simpl; intros H; auto. inversion H; auto. Qed.

Lemma NoDup_map_append s (names : list string) :
  NoDup names -> NoDup (map (fun name => s ++ name) names).
Proof.
  induction 1 as [|x l Hnin Hnd IH]; simpl; constructor; auto.
  intros Hin. apply Hnin. apply in_map_iff in Hin.
  destruct Hin as (y & Hy & Hl). apply append_inj_r in Hy. now subst.
Qed.

Lemma NoDup_names_filter (p : FileInfo -> bool) (files : list FileInfo) :
  NoDup (map fi_Name files) -> NoDup (map fi_Name (filter p files)).
Proof.
  induction files as [|fi files IH]; simpl; intros H; [constructor|].
  inversion H as [|x l Hnin Hnd]; subst.
  destruct (p fi); simpl; auto. constructor; auto.
  intros Hin. apply Hnin. rewrite in_map_iff in *.
  destruct Hin as (y & Hy & Hf). apply filter_In in Hf. exists y. tauto.
Qed.

(** X2.  When the entries of the input directory have names that are not
    empty, hold no separator and differ from one another, as the entries of
    one directory do, the destination of each enumerated path is the output
    directory followed by the entry's own name, and no two paths of a run
    have the same destination. *)
Theorem X2_destinations_distinct {P : Platform}
        (args : list string) (fs : FS) (cfg : Config) (printed : list string)
        (f : Flags) (files : list FileInfo) :
  Run_init args fs = (InitDispatch cfg, printed) ->
  flag_Parse (tl args) = Parsed f ->
  ioutil_ReadDir fs (addDirectorySuffix (fl_directory f)) = Ok files ->
  Forall (fun fi => valid_name (fi_Name fi) = true) files ->
  NoDup (map fi_Name files) ->
  map (outputFilePath (cfg_output cfg)) (cfg_filePaths cfg)
  = map (fun fi => addDirectorySuffix (fl_output f) ++ fi_Name fi)
        (filter (fun fi => negb (fi_IsDir fi)) files) /\
  NoDup (map (outputFilePath (cfg_output cfg)) (cfg_filePaths cfg)).
Proof.
  intros E Hf Hr Hvalid Hnd.
  destruct (Run_init_dispatch _ _ _ _ E)
    as (a0 & rest & f' & data & files' & -> & Hf' & _ & _ & _ & _ & Hr' & Hc & _).
  simpl in Hf. rewrite Hf in Hf'. inversion Hf'; subst f'.
  rewrite Hr in Hr'. inversion Hr'; subst files'. clear Hf' Hr'.
  assert (Hmap : map (outputFilePath (cfg_output cfg)) (cfg_filePaths cfg)
           = map (fun fi => addDirectorySuffix (fl_output f) ++ fi_Name fi)
                 (filter (fun fi => negb (fi_IsDir fi)) files)).
  { rewrite Hc. simpl. rewrite readImagePaths_loop_filter, map_map.
    apply map_ext_in. intros fi Hin. apply filter_In in Hin.
    unfold outputFilePath. f_equal. apply filepath_Base_join.
    - apply addDirectorySuffix_spec.
    - rewrite Forall_forall in Hvalid. apply Hvalid. tauto. }
  split; [exact Hmap|]. rewrite Hmap.
  rewrite <- (map_map fi_Name
                (fun name => addDirectorySuffix (fl_output f) ++ name)).
  apply NoDup_map_append. now apply NoDup_names_filter.
Qed.

Lemma X2_destinations_distinct_witness :
  map (outputFilePath "out/") ["in/a.png"; "in/b.png"; "in/c.txt"]
  = ["out/" ++ "a.png"; "out/" ++ "b.png"; "out/" ++ "c.txt"] /\
  NoDup (map (outputFilePath "out/") ["in/a.png"; "in/b.png"; "in/c.txt"]).
Proof.
  apply (X2_destinations_distinct
           (P := Sim.shipped) ["lgtmgen"; "-d"; "in"; "-o"; "out"] Sim.disk
           Sim.config_disk []
           {| fl_output := "out"; fl_directory := "in"; fl_force := false;
              fl_version := false |}
           [{| fi_Name := "a.png"; fi_IsDir := false |};
            {| fi_Name := "b.png"; fi_IsDir := false |};
            {| fi_Name := "c.txt"; fi_IsDir := false |};
            {| fi_Name := "sub"; fi_IsDir := true |}]);
    try reflexivity.
  - repeat constructor.
  - repeat constructor; simpl; intuition discriminate.
Defined.

(** ** What a run does to the file system *)

Section Writes.
Context {P : Platform}.
Variable cfg : Config.

Lemma st_fs_apply_effect s tasks' e :
  st_fs (apply_effect s tasks' e) = eff_fs (st_fs s) e.
Proof. destruct e; reflexivity. Qed.

Lemma saves_of_advance t pc c :
  saves_of (advance t pc c) = (saves_of t ++ save_of c)%list.
Proof.
  unfold saves_of, advance; simpl. rewrite flat_map_app; simpl.
  now rewrite app_nil_r.
Qed.

(** A step of a goroutine changes the file system by at most one call of
    [imaging.Save], on its own destination, and records that call. *)
Lemma task_step_fs fs t t' e :
  task_step cfg fs t = Some (t', e) ->
  exists sv,
    saves_of t' = (saves_of t ++ sv)%list /\
    eff_fs fs e = apply_saves fs sv /\
    (sv = [] \/
     exists img, t_pc t = AtSave img /\
                 sv = [(outputFilePath (cfg_output cfg) (t_filePath t), img)]).
Proof.
  unfold task_step. intros H.
  destruct (t_pc t) eqn:Epc;
    repeat match type of H with
           | context [match ?x with _ => _ end] => destruct x eqn:?
           | context [if ?b then _ else _] => destruct b eqn:?
           end;
    try discriminate; inversion H; subst; clear H;
    rewrite ?saves_of_advance; simpl;
    try (exists []; rewrite ?app_nil_r; auto; fail).
  all: eexists; split; [reflexivity|]; simpl;
    match goal with
    | E : imaging_Save _ _ _ = _ |- _ => rewrite E
    end; simpl; split; eauto.
Qed.

Lemma apply_saves_app fs l1 l2 :
  apply_saves fs (l1 ++ l2) = apply_saves (apply_saves fs l1) l2.
Proof.
  revert fs; induction l1 as [|[p i] l1 IH]; intros fs; simpl; auto.
Qed.

End Writes.

(** X24.  The only thing a run does to the file system is to call
    [imaging.Save]: the file system of every state is the initial one after
    the calls recorded by the goroutines, in the order in which they
    happened, and each of these calls is on the destination of an enumerated
    path.  No goroutine calls it more than once. *)
Theorem X24_writes_only_by_save {P : Platform}
        (cfg : Config) (fs : FS) (printed : list string) (s : State) :
  steps cfg (initial cfg fs printed) s ->
  exists saves,
    st_fs s = apply_saves fs saves /\
    Permutation saves (flat_map saves_of (st_tasks s)) /\
    Forall (fun pi => exists filePath,
                In filePath (cfg_filePaths cfg) /\
                fst pi = outputFilePath (cfg_output cfg) filePath) saves /\
    Forall (fun t => (List.length (saves_of t) <= 1)%nat) (st_tasks s).
Proof.
  intros Hs.
  assert (Hperm : exists saves,
             st_fs s = apply_saves fs saves /\
             Permutation saves ([] ++ flat_map saves_of (st_tasks s))).
  { remember (initial cfg fs printed) as s0 eqn:E0.
    induction Hs as [|s1 s2 s3 H12 IH H23]; subst.
    - exists []. split; [reflexivity|]. simpl. constructor.
    - destruct (IH eq_refl) as (saves & Hfs & Hp).
      destruct (step_inv _ _ _ H23) as [Ep Hm | l1 t l2 t' e Ep Et Ht Es].
      + exists saves. unfold main_step in Hm.
        destruct (st_main s2) as [[|filePath rest]| |code];
          try discriminate;
          [| |destruct (st_wg s2 =? 0)%Z; try discriminate];
          inversion Hm; subst; simpl in *; split; auto.
        rewrite flat_map_app. simpl. now rewrite app_nil_r.
      + destruct (task_step_fs cfg _ _ _ _ Ht) as (sv & Hsv & Hfs' & _).
        exists (saves ++ sv)%list. subst s3.
        rewrite st_fs_apply_effect, Hfs', Hfs, apply_saves_app.
        split; [reflexivity|].
        destruct (st_apply_effect s2 (l1 ++ t' :: l2) e) as (_ & At & _).
        rewrite At. rewrite Et in Hp.
        eapply Permutation_grow; eauto. }
  destruct Hperm as (saves & Hfs & Hp). simpl in Hp.
  pose proof (Inv_reachable _ _ _ _ Hs) as I.
  pose proof (inv_logs _ _ _ I) as Hl. rewrite Forall_forall in Hl.
  exists saves. split; [exact Hfs|]. split; [exact Hp|]. split.
  - rewrite Forall_forall. intros [p img] Hin.
    apply (Permutation_in _ Hp) in Hin. apply in_flat_map in Hin.
    destruct Hin as (t & Ht & Hin). unfold saves_of in Hin.
    apply in_flat_map in Hin. destruct Hin as (c & Hc & Hin).
    exists (t_filePath t). split.
    + rewrite <- (inv_paths _ _ _ I). apply in_or_app. left.
      now apply in_map.
    + simpl. destruct c as [r|q b|q i e0|line|line|]; simpl in Hin;
        try contradiction.
      destruct Hin as [Hin|[]]. inversion Hin; subst.
      exact (task_log_paths cfg (t_filePath t) (t_pc t) (t_calls t)
               (CallSave p img e0) p (Hl t Ht) Hc eq_refl).
  - rewrite Forall_forall. intros t Ht. specialize (Hl t Ht).
    unfold task_ok in Hl. unfold saves_of.
    destruct Hl; simpl; auto;
      try match goal with
          | H : body_log _ _ _ |- _ =>
              destruct H; simpl; auto
          end.
Qed.

Lemma X24_writes_only_by_save_witness :
  let s := run_to_end Sim.config_disk [] (initial Sim.config_disk Sim.disk []) in
  exists saves,
    st_fs s = apply_saves (P := Sim.shipped) Sim.disk saves /\
    Permutation saves (flat_map saves_of (st_tasks s)).
Proof.
  intros s.
  destruct (X24_writes_only_by_save Sim.config_disk Sim.disk [] s)
    as (saves & H1 & H2 & _).
  - apply run_to_end_steps.
  - exists saves. split; assumption.
Defined.

(** ** An input directory without files *)

Lemma steps_no_paths {P : Platform} cfg fs printed s :
  cfg_filePaths cfg = [] ->
  steps cfg (initial cfg fs printed) s ->
  st_tasks s = [] /\ st_fs s = fs /\ st_err s = printed /\ st_out s = [] /\
  st_panic s = None /\ st_wg s = 0%Z /\
  (st_main s = Dispatching [] \/ st_main s = Waiting \/
   st_main s = Returned ExitCodeOK).
Proof.
  intros Hnil Hs. remember (initial cfg fs printed) as s0 eqn:E0.
  induction Hs as [|s1 s2 s3 H12 IH H23]; subst.
  - simpl. rewrite Hnil. repeat split; auto.
  - destruct (IH eq_refl) as (Ht & Hfs & He & Ho & Hp & Hw & Hm).
    destruct (step_inv _ _ _ H23) as [Ep Hstep | l1 t l2 t' e Ep Et Hstep Es].
    + unfold main_step in Hstep.
      destruct Hm as [Hm|[Hm|Hm]]; rewrite Hm in Hstep; try discriminate.
      * inversion Hstep; subst; simpl. repeat split; auto.
      * rewrite Hw in Hstep. simpl in Hstep.
        inversion Hstep; subst; simpl. repeat split; auto.
    + rewrite Ht in Et. destruct l1; discriminate.
Qed.

(** X6.  When the input directory holds no file (it is empty or holds
    directories only), [Run] starts no goroutine, passes [wg.Wait()] at once
    and returns [ExitCodeOK]; the file system and both streams are left as
    they were.  The mask is not looked at, so this holds even when it did
    not decode. *)
Theorem X6_no_files_no_work {P : Platform}
        (args : list string) (fs : FS) (a0 : string) (rest : list string)
        (f : Flags) (data : bytes) (files : list FileInfo) (o : Outcome) :
  args = a0 :: rest ->
  flag_Parse rest = Parsed f ->
  fl_version f = false ->
  fl_directory f <> "" ->
  fl_output f <> "" ->
  images_Asset MaskImage = Ok data ->
  ioutil_ReadDir fs (addDirectorySuffix (fl_directory f)) = Ok files ->
  Forall (fun fi => fi_IsDir fi = true) files ->
  RunsTo args fs o ->
  o = {| o_status := Exited ExitCodeOK; o_tasks := []; o_fs := fs;
         o_err := []; o_out := [] |}.
Proof.
  intros -> Hf Hv Hd Ho Ha Hr Hdirs HR.
  assert (Hnil : readImagePaths_loop (addDirectorySuffix (fl_directory f)) files
                 = []).
  { clear Hr. induction Hdirs as [|fi l Hfi Hl IH]; simpl; auto.
    now rewrite Hfi. }
  assert (E : Run_init (a0 :: rest) fs
              = (InitDispatch
                   {| cfg_output := addDirectorySuffix (fl_output f);
                      cfg_force := fl_force f;
                      cfg_maskImage := fst (image_Decode data);
                      cfg_filePaths := [] |}, [])).
  { unfold Run_init, loadMaskImage, readImagePaths.
    apply String.eqb_neq in Hd, Ho.
    now rewrite Hf, Hv, Hd, Ho, Ha, Hr, Hnil. }
  destruct (RunsTo_dispatch_inv _ _ _ _ _ E HR) as (s & Hs & Ht & ->).
  apply steps_no_paths in Hs; [|reflexivity].
  destruct Hs as (H1 & H2 & H3 & H4 & H5 & _ & H6).
  unfold observe, status in *. rewrite H1, H2, H3, H4, H5 in *.
  destruct H6 as [H6|[H6|H6]]; rewrite H6 in *; congruence.
Qed.

Lemma X6_no_files_no_work_witness :
  Run (P := Sim.corrupt) [1; 0; 2]%nat ["lgtmgen"; "-d"; "in/sub"; "-o"; "out"]
      Sim.disk
  = @Build_Outcome Sim.corrupt (Exited ExitCodeOK) [] Sim.disk [] [].
Proof.
  apply (X6_no_files_no_work
           (P := Sim.corrupt)
           ["lgtmgen"; "-d"; "in/sub"; "-o"; "out"] Sim.disk "lgtmgen"
           ["-d"; "in/sub"; "-o"; "out"]
           {| fl_output := "out"; fl_directory := "in/sub"; fl_force := false;
              fl_version := false |}
           [x00; x01] []);
    try reflexivity; try discriminate.
  - constructor.
  - apply Run_RunsTo.
Defined.

(** ** A second run without [-force] *)

Section Rerun.
Context {P : Platform}.
Variable cfg : Config.
Variable fs : FS.
Variable printed : list string.
Hypothesis no_force : cfg_force cfg = false.
Hypothesis all_there :
  forall filePath,
    In filePath (cfg_filePaths cfg) ->
    existFile fs (outputFilePath (cfg_output cfg) filePath) = true.

Lemma task_step_before_save t t' e :
  In (t_filePath t) (cfg_filePaths cfg) ->
  before_save (t_pc t) = true ->
  task_step cfg fs t = Some (t', e) ->
  before_save (t_pc t') = true /\ saves_of t' = saves_of t /\ eff_fs fs e = fs.
Proof.
  intros Hin Hb H.
  destruct (task_step_fs cfg _ _ _ _ H) as (sv & Hsv & Hfs & Hcase).
  assert (sv = []) as ->.
  { destruct Hcase as [|(img & Epc & _)]; auto.
    rewrite Epc in Hb. discriminate. }
  rewrite app_nil_r in Hsv. simpl in Hfs. split; [|split; auto].
  unfold task_step in H. specialize (all_there _ Hin).
  destruct (t_pc t) eqn:Epc; try discriminate;
    repeat match type of H with
           | context [match ?x with _ => _ end] => destruct x eqn:?
           | context [if ?b then _ else _] => destruct b eqn:?
           end;
    try discriminate; inversion H; subst; clear H; simpl; auto;
    try (rewrite Epc; reflexivity).
  rewrite all_there, no_force in *. discriminate.
Qed.

Lemma rerun_invariant s :
  steps cfg (initial cfg fs printed) s ->
  st_fs s = fs /\
  Forall (fun t => before_save (t_pc t) = true /\ saves_of t = [])
         (st_tasks s).
Proof.
  intros Hs. remember (initial cfg fs printed) as s0 eqn:E0.
  induction Hs as [|s1 s2 s3 H12 IH H23]; subst.
  - simpl. auto.
  - destruct (IH eq_refl) as (Hfs & Hall).
    pose proof (Inv_reachable _ _ _ _ H12) as I.
    destruct (step_inv _ _ _ H23) as [Ep Hm | l1 t l2 t' e Ep Et Ht Es].
    + unfold main_step in Hm.
      destruct (st_main s2) as [[|filePath rest]| |code];
        try discriminate;
        [| |destruct (st_wg s2 =? 0)%Z; try discriminate];
        inversion Hm; subst; simpl in *; split; auto.
      apply Forall_app. split; auto.
    + subst s3. rewrite st_fs_apply_effect.
      destruct (st_apply_effect s2 (l1 ++ t' :: l2) e) as (_ & At & _).
      rewrite At. rewrite Et in Hall.
      apply Forall_app in Hall. destruct Hall as [F1 F2].
      apply Forall_cons_iff in F2. destruct F2 as [[Hb Hsv] F3].
      assert (Hin : In (t_filePath t) (cfg_filePaths cfg)).
      { rewrite <- (inv_paths _ _ _ I), Et. apply in_or_app. left.
        rewrite map_app. apply in_or_app. right. left. reflexivity. }
      rewrite Hfs in *.
      destruct (task_step_before_save t t' e Hin Hb Ht) as (Hb' & Hsv' & Hfs').
      split; [exact Hfs'|].
      apply Forall_app. split; auto. constructor; auto.
      split; auto. congruence.
Qed.

End Rerun.

(** X7.  Without [-force], when [os.Stat] finds every destination, a run
    writes nothing: [imaging.Save] is never called, the file system stays as
    it was, standard output stays empty, and every goroutine whose
    [wg.Done()] has run has either reported that its source did not decode,
    or written the [[already exists]] line for its destination, or, which
    can only be when the mask is nil, panicked in [overlayImage] without a
    line. *)
Theorem X7_rerun_without_force_writes_nothing {P : Platform}
        (cfg : Config) (fs : FS) (printed : list string) (s : State) :
  cfg_force cfg = false ->
  (forall filePath,
      In filePath (cfg_filePaths cfg) ->
      existFile fs (outputFilePath (cfg_output cfg) filePath) = true) ->
  steps cfg (initial cfg fs printed) s ->
  st_fs s = fs /\ st_out s = [] /\
  Forall (fun t =>
            saves_of t = [] /\
            (running t = false ->
             (exists mask_err,
                 t_calls t
                 = [CallOverlay (Err mask_err);
                    WriteErr ("[" ++ mask_err ++ "] " ++ t_filePath t
                              ++ newline);
                    CallDone]) \/
             (exists img,
                 t_calls t
                 = [CallOverlay (Ok img);
                    CallExist (outputFilePath (cfg_output cfg) (t_filePath t))
                              true;
                    WriteErr ("[already exists] "
                              ++ outputFilePath (cfg_output cfg) (t_filePath t)
                              ++ newline);
                    CallDone]) \/
             (cfg_maskImage cfg = None /\ t_calls t = [CallDone])))
         (st_tasks s).
Proof.
  intros Hforce Hthere Hs.
  destruct (rerun_invariant cfg fs printed Hforce Hthere s Hs) as (Hfs & Hall).
  pose proof (Inv_reachable _ _ _ _ Hs) as I.
  pose proof (inv_logs _ _ _ I) as Hl.
  assert (Hshape : Forall (fun t =>
            saves_of t = [] /\ out_lines t = [] /\
            (running t = false ->
             (exists mask_err,
                 t_calls t
                 = [CallOverlay (Err mask_err);
                    WriteErr ("[" ++ mask_err ++ "] " ++ t_filePath t
                              ++ newline);
                    CallDone]) \/
             (exists img,
                 t_calls t
                 = [CallOverlay (Ok img);
                    CallExist (outputFilePath (cfg_output cfg) (t_filePath t))
                              true;
                    WriteErr ("[already exists] "
                              ++ outputFilePath (cfg_output cfg) (t_filePath t)
                              ++ newline);
                    CallDone]) \/
             (cfg_maskImage cfg = None /\ t_calls t = [CallDone])))
            (st_tasks s)).
  { rewrite Forall_forall in *. intros t Ht.
    destruct (Hall t Ht) as [Hb Hsv]. specialize (Hl t Ht).
    unfold task_ok in Hl. unfold saves_of, out_lines, running in *.
    split; [exact Hsv|].
    destruct Hl; simpl in *; try discriminate;
      try (split; [reflexivity|]; intros; discriminate).
    - destruct H; simpl in *; try discriminate;
        (split; [reflexivity|]; intros; discriminate).
    - split; [reflexivity|]. intros _. right. right. auto.
    - destruct H; simpl in *; try discriminate;
        (split; [reflexivity|]; intros _; eauto). }
  split; [exact Hfs|]. split.
  - pose proof (inv_out _ _ _ I) as Ho.
    assert (Hnil : flat_map out_lines (st_tasks s) = []).
    { clear - Hshape. induction Hshape as [|t l (_ & Ht & _) Hl IH]; simpl; auto.
      now rewrite Ht, IH. }
    rewrite Hnil in Ho. apply Permutation_sym in Ho.
    now apply Permutation_nil in Ho.
  - rewrite Forall_forall in *. intros t Ht.
    destruct (Hshape t Ht) as (H1 & _ & H3). auto.
Qed.

Lemma X7_rerun_without_force_writes_nothing_witness :
  let s := run_to_end Sim.config_disk [2; 0; 1]%nat
                      (initial Sim.config_disk Sim.disk_full []) in
  st_fs s = Sim.disk_full /\ st_out s = [].
Proof.
  intros s.
  destruct (X7_rerun_without_force_writes_nothing
              Sim.config_disk Sim.disk_full [] s) as (H1 & H2 & _).
  - reflexivity.
  - intros filePath [<-|[<-|[<-|[]]]]; reflexivity.
  - apply run_to_end_steps.
  - split; assumption.
Defined.

(** ** Two runs with [-force] *)







Section Settled.
Context {P : Platform}.
Variable encode : NRGBA -> string -> bytes.
Variable cfg : Config.
Variables fs_a fs_now : FS.




End Settled.

Section Forced.
Context {P : Platform}.
Variable encode : NRGBA -> string -> bytes.
Variable cfg : Config.

Hypothesis dests_distinct :
  NoDup (map (outputFilePath (cfg_output cfg)) (cfg_filePaths cfg)).

Hypothesis save_content :
  forall fs0 img p q,
    In p (map (outputFilePath (cfg_output cfg)) (cfg_filePaths cfg)) ->
    In q (map (outputFilePath (cfg_output cfg)) (cfg_filePaths cfg)) ->
    ioutil_ReadFile (fst (imaging_Save fs0 img p)) q
    = match snd (imaging_Save fs0 img p) with
      | None => if String.eqb q p then Ok (encode img p)
                else ioutil_ReadFile fs0 q
      | Some _ => ioutil_ReadFile fs0 q
      end.

Hypothesis save_steady :
  forall fs0 img img' p q,
    In p (map (outputFilePath (cfg_output cfg)) (cfg_filePaths cfg)) ->
    In q (map (outputFilePath (cfg_output cfg)) (cfg_filePaths cfg)) ->
    (snd (imaging_Save (fst (imaging_Save fs0 img' q)) img p) = None <->
     snd (imaging_Save fs0 img p) = None).

Hypothesis inputs_kept :
  forall fs0 img p filePath,
    In p (map (outputFilePath (cfg_output cfg)) (cfg_filePaths cfg)) ->
    In filePath (cfg_filePaths cfg) ->
    imaging_Open (fst (imaging_Save fs0 img p)) filePath
    = imaging_Open fs0 filePath.





Hypothesis forced : cfg_force cfg = true.


End Forced.

(** ** C9: two runs with [-force] *)









